(** * HashMap-Tutorial: a chained hash table with growth, and its cursors

    A shallow embedding of [hashMap.hpp] and the properties of its
    specification.

    Modelling choices.
    - [size_t] is a 64-bit unsigned integer: a [Z] with the wrap-around
      written out ([wrap]).
    - A chain ([Entry<K,V>*], linked through [m_next]) is a [list Entry]:
      [[]] is [nullptr], and the tail of the list is what [GetNext] returns.
    - The bucket array ([Entry<K,V>**]) is a list of chains.  A read or write
      past its end is undefined behaviour ([UB]).
    - A pointer to one bucket slot ([Entry<K,V>** bucket]) is the slot's
      index; a pointer to a node is the pair (slot index, depth in the chain),
      [None] being [nullptr].
    - [m_loadFactor] is a [float]; every float is a rational, so the field is
      a [Q].  The product [m_loadFactor * m_capacity] is taken exactly and
      truncated towards zero, which is the conversion to [size_t]; the
      rounding of the float product is not modelled.
    - [std::hash<K>] and [K]'s [operator==] are parameters: [hasher] and the
      decidable equality of [K].
    - Calls return a [result]: [Ok], [UB] (undefined behaviour: a null or
      out-of-bounds dereference, a division by zero) or [Timeout] (the fuel
      that bounds the nesting of [Reallocate] inside [PlaceInBucket], or a
      loop bound, ran out).
    - [new] always succeeds and [delete] is a no-op: memory exhaustion is not
      modelled. *)

From Stdlib Require Import ZArith QArith_base Lia.
From stdpp Require Import base tactics option list gmap strings.

Local Open Scope Z_scope.

(** ** Results of calls *)

Inductive result (A : Type) : Type :=
  | Ok (a : A)
  | UB
  | Timeout.
Arguments Ok {A} a.
Arguments UB {A}.
Arguments Timeout {A}.

Global Instance result_ret : MRet result := @Ok.
Global Instance result_bind : MBind result := λ A B f r,
  match r with
  | Ok a => f a
  | UB => UB
  | Timeout => Timeout
  end.

(** ** Machine integers *)

Definition size_max : Z := 2 ^ 64.
Definition wrap (z : Z) : Z := z mod size_max.

(** [(size_t)(loadFactor * capacity)]: the exact product, truncated. *)
Definition maxCountOf (loadFactor : Q) (capacity : Z) : Z :=
  Z.quot (Qnum loadFactor * capacity) (Z.pos (Qden loadFactor)).

Section HashMap.

Context {K : Type} `{Countable K}.
Context {V : Type}.
(** [V value;]: the default-constructed value of [operator[]]. *)
Variable V_default : V.
(** [std::hash<K>]; a [size_t].  Only equality of hash codes and their
    remainder modulo a positive capacity are ever used. *)
Variable hasher : K → Z.

(** ** Entry *)

Record Entry : Type := mkEntry {
  m_hashCode : Z;
  m_key : K;
  m_value : V
}.

Definition Entry_new (key : K) (value : V) : Entry :=
  {| m_hashCode := hasher key; m_key := key; m_value := value |}.

Definition SetValue (value : V) (e : Entry) : Entry :=
  {| m_hashCode := m_hashCode e; m_key := m_key e; m_value := value |}.

(** ** HashMap *)

Record HashMap : Type := mkHashMap {
  m_buckets : list (list Entry);
  m_capacity : Z;
  m_count : Z;
  m_loadFactor : Q;
  m_maxCount : Z
}.

Definition set_buckets (t : HashMap) (bs : list (list Entry)) : HashMap :=
  {| m_buckets := bs; m_capacity := m_capacity t; m_count := m_count t;
     m_loadFactor := m_loadFactor t; m_maxCount := m_maxCount t |}.

Definition set_count (t : HashMap) (n : Z) : HashMap :=
  {| m_buckets := m_buckets t; m_capacity := m_capacity t; m_count := n;
     m_loadFactor := m_loadFactor t; m_maxCount := m_maxCount t |}.

(** The constructor. *)
Definition HashMap_new (initialCapacity : Z) (loadFactor : Q) : HashMap :=
  {| m_buckets := replicate (Z.to_nat initialCapacity) [];
     m_capacity := initialCapacity;
     m_count := 0;
     m_loadFactor := loadFactor;
     m_maxCount := maxCountOf loadFactor initialCapacity |}.

Definition Count (t : HashMap) : Z := m_count t.

(** [GetBucket]: the address of slot [hash % m_capacity]; the remainder by
    zero is undefined. *)
Definition GetBucket (t : HashMap) (key : K) : result nat :=
  if decide (m_capacity t = 0) then UB
  else Ok (Z.to_nat (hasher key mod m_capacity t)).

(** [*bucket]. *)
Definition read_bucket (t : HashMap) (bucket : nat) : result (list Entry) :=
  match m_buckets t !! bucket with
  | Some chain => Ok chain
  | None => UB
  end.

(** The two-stage test of the three chain walks: cached hash, then key. *)
Definition matches (keyHash : Z) (key : K) (e : Entry) : bool :=
  (m_hashCode e =? keyHash) && bool_decide (m_key e = key).

(** The [while] loop of [PlaceInBucket]: [Some] chain with the value
    overwritten when the key is found, [None] when the walk reaches the end. *)
Fixpoint place_in_chain (keyHash : Z) (key : K) (value : V)
    (currEntry : list Entry) : option (list Entry) :=
  match currEntry with
  | [] => None
  | e :: next =>
      if matches keyHash key e then Some (SetValue value e :: next)
      else (e ::.) <$> place_in_chain keyHash key value next
  end.

(** The [while] loop of [GetFromBucket]: the depth of the node found. *)
Fixpoint get_in_chain (keyHash : Z) (key : K)
    (currEntry : list Entry) : option nat :=
  match currEntry with
  | [] => None
  | e :: next =>
      if matches keyHash key e then Some 0%nat
      else S <$> get_in_chain keyHash key next
  end.

(** The [while] loop of [RemoveFromBucket]: the chain with the node found
    unlinked. *)
Fixpoint remove_in_chain (keyHash : Z) (key : K)
    (currEntry : list Entry) : option (list Entry) :=
  match currEntry with
  | [] => None
  | e :: next =>
      if matches keyHash key e then Some next
      else (e ::.) <$> remove_in_chain keyHash key next
  end.

(** *** Reallocate, over the insertion it calls *)

Section Reallocate.
Variable place : HashMap → nat → K → V → result (bool * HashMap).

(** The inner [while] of [Reallocate]: reinsert one old chain. *)
Fixpoint realloc_chain (currEntry : list Entry) (t : HashMap)
    : result HashMap :=
  match currEntry with
  | [] => Ok t
  | e :: next =>
      bucket ← GetBucket t (m_key e);
      r ← place t bucket (m_key e) (m_value e);
      realloc_chain next r.2
  end.

(** The outer [for] of [Reallocate].  Its bound [m_capacity / 2] is read
    from the table at every iteration.  [n] bounds the iterations: reading
    [oldBuckets[i]] past the end is undefined, so there are at most
    [length oldBuckets + 1] of them. *)
Fixpoint realloc_buckets (n : nat) (oldBuckets : list (list Entry))
    (i : Z) (t : HashMap) : result HashMap :=
  if decide (i < m_capacity t / 2) then
    match n with
    | O => Timeout
    | S n' =>
        match oldBuckets !! Z.to_nat i with
        | None => UB
        | Some chain =>
            t' ← realloc_chain chain t;
            realloc_buckets n' oldBuckets (wrap (i + 1)) t'
        end
    end
  else Ok t.

Definition Reallocate_with (t : HashMap) : result HashMap :=
  let newCapacity := wrap (m_capacity t * 2) in
  let oldBuckets := m_buckets t in
  realloc_buckets (S (length oldBuckets)) oldBuckets 0
    {| m_buckets := replicate (Z.to_nat newCapacity) [];
       m_capacity := newCapacity;
       m_count := 0;
       m_loadFactor := m_loadFactor t;
       m_maxCount := maxCountOf (m_loadFactor t) newCapacity |}.
End Reallocate.

(** *** PlaceInBucket

    [fuel] bounds how deep [Reallocate] may nest inside [PlaceInBucket]. *)
Fixpoint PlaceInBucket (fuel : nat) (t : HashMap) (bucket : nat)
    (key : K) (value : V) : result (bool * HashMap) :=
  chain ← read_bucket t bucket;
  match place_in_chain (hasher key) key value chain with
  | Some chain' => Ok (true, set_buckets t (<[bucket := chain']> (m_buckets t)))
  | None =>
      let t1 :=
        set_count
          (set_buckets t (<[bucket := chain ++ [Entry_new key value]]> (m_buckets t)))
          (wrap (m_count t + 1)) in
      if decide (m_count t1 > m_maxCount t1) then
        match fuel with
        | O => Timeout
        | S fuel' =>
            t2 ← Reallocate_with (PlaceInBucket fuel') t1;
            Ok (false, t2)
        end
      else Ok (false, t1)
  end.

(** [Reallocate], its re-insertions allowed [fuel] nested growths. *)
Definition Reallocate (fuel : nat) (t : HashMap) : result HashMap :=
  Reallocate_with (PlaceInBucket fuel) t.

Definition GetFromBucket (t : HashMap) (bucket : nat) (key : K)
    : result (option nat) :=
  chain ← read_bucket t bucket;
  Ok (get_in_chain (hasher key) key chain).

Definition RemoveFromBucket (t : HashMap) (bucket : nat) (key : K)
    : result (bool * HashMap) :=
  chain ← read_bucket t bucket;
  match remove_in_chain (hasher key) key chain with
  | Some chain' =>
      Ok (true,
          set_count (set_buckets t (<[bucket := chain']> (m_buckets t)))
                    (wrap (m_count t - 1)))
  | None => Ok (false, t)
  end.

Definition Place (fuel : nat) (t : HashMap) (key : K) (value : V)
    : result (bool * HashMap) :=
  bucket ← GetBucket t key;
  PlaceInBucket fuel t bucket key value.

Definition Remove (t : HashMap) (key : K) : result (bool * HashMap) :=
  bucket ← GetBucket t key;
  RemoveFromBucket t bucket key.

(** *** operator[]

    The [V&] it returns is the address of the node whose value it is. *)
Definition NodePtr : Type := option (nat * nat).

Definition node_at (bs : list (list Entry)) (p : nat * nat) : option Entry :=
  chain ← bs !! p.1; chain !! p.2.

Definition operator_subscript (fuel : nat) (t : HashMap) (key : K)
    : result ((nat * nat) * HashMap) :=
  bucket ← GetBucket t key;
  foundEntry ← GetFromBucket t bucket key;
  match foundEntry with
  | Some depth => Ok ((bucket, depth), t)
  | None =>
      let value := V_default in
      bucket1 ← GetBucket t key;
      r ← PlaceInBucket fuel t bucket1 key value;
      bucket2 ← GetBucket r.2 key;
      foundEntry2 ← GetFromBucket r.2 bucket2 key;
      match foundEntry2 with
      | Some depth => Ok ((bucket2, depth), r.2)
      | None => UB
      end
  end.

(** Reading and assigning through the returned reference. *)
Definition ref_get (t : HashMap) (p : nat * nat) : option V :=
  m_value <$> node_at (m_buckets t) p.

Definition ref_set (t : HashMap) (p : nat * nat) (value : V) : HashMap :=
  set_buckets t (alter (alter (SetValue value) p.2) p.1 (m_buckets t)).

(** *** Clear *)

Fixpoint clear_loop (n : nat) (i : Z) (t : HashMap) : result HashMap :=
  if decide (i < m_capacity t) then
    match n with
    | O => Timeout
    | S n' =>
        match m_buckets t !! Z.to_nat i with
        | None => UB
        | Some _ =>
            clear_loop n' (wrap (i + 1))
              (set_buckets t (<[Z.to_nat i := []]> (m_buckets t)))
        end
    end
  else Ok t.

Definition Clear (t : HashMap) : result HashMap :=
  t' ← clear_loop (Z.to_nat (m_capacity t)) 0 t;
  Ok (set_count t' 0).

(** ** HashIterator *)

(** The cursor's own [m_buckets] and [m_capacity] are [i_buckets] and
    [i_capacity] here: the table's fields bear the source's names. *)
Record HashIterator : Type := mkHashIterator {
  i_buckets : list (list Entry);
  i_capacity : Z;
  m_bucketIndex : Z;
  m_currEntry : NodePtr
}.

(** [m_buckets[index]]: the head of a slot, as a node pointer. *)
Definition head_of (bs : list (list Entry)) (index : Z) : result NodePtr :=
  match bs !! Z.to_nat index with
  | None => UB
  | Some [] => Ok None
  | Some (_ :: _) => Ok (Some (Z.to_nat index, 0%nat))
  end.

(** The [while (m_currEntry == nullptr)] loop shared by the constructor and
    [operator++]; [n] bounds the iterations. *)
Fixpoint scan (n : nat) (it : HashIterator) : result HashIterator :=
  match m_currEntry it with
  | Some _ => Ok it
  | None =>
      let index := wrap (m_bucketIndex it + 1) in
      if decide (index >= i_capacity it) then
        Ok {| i_buckets := i_buckets it; i_capacity := i_capacity it;
              m_bucketIndex := index; m_currEntry := None |}
      else
        match n with
        | O => Timeout
        | S n' =>
            curr ← head_of (i_buckets it) index;
            scan n' {| i_buckets := i_buckets it; i_capacity := i_capacity it;
                       m_bucketIndex := index; m_currEntry := curr |}
        end
  end.

(** [HashIterator()]: the end sentinel.  Its [m_buckets] and [m_capacity]
    are left uninitialised by the source. *)
Definition HashIterator_end : HashIterator :=
  {| i_buckets := []; i_capacity := 0; m_bucketIndex := 0;
     m_currEntry := None |}.

(** [HashIterator(buckets, capacity)]. *)
Definition HashIterator_new (buckets : list (list Entry)) (capacity : Z)
    : result HashIterator :=
  curr ← head_of buckets 0;
  scan (Z.to_nat capacity)
    {| i_buckets := buckets; i_capacity := capacity;
       m_bucketIndex := 0; m_currEntry := curr |}.

(** [m_currEntry->GetNext()] for a non-null [m_currEntry]. *)
Definition GetNext (bs : list (list Entry)) (p : nat * nat) : result NodePtr :=
  match node_at bs p with
  | None => UB
  | Some _ =>
      match node_at bs (p.1, S p.2) with
      | Some _ => Ok (Some (p.1, S p.2))
      | None => Ok None
      end
  end.

(** [operator++]: the current entry is dereferenced first, null or not. *)
Definition operator_incr (it : HashIterator) : result HashIterator :=
  match m_currEntry it with
  | None => UB
  | Some p =>
      next ← GetNext (i_buckets it) p;
      scan (Z.to_nat (i_capacity it))
        {| i_buckets := i_buckets it; i_capacity := i_capacity it;
           m_bucketIndex := m_bucketIndex it; m_currEntry := next |}
  end.

Definition GetCurrentEntry (it : HashIterator) : NodePtr := m_currEntry it.

Definition operator_eq (it other : HashIterator) : bool :=
  bool_decide (m_currEntry it = m_currEntry other).

Definition operator_ne (it other : HashIterator) : bool :=
  negb (operator_eq it other).

(** [KeyIterator::operator*]. *)
Definition KeyIterator_deref (it : HashIterator) : result K :=
  match GetCurrentEntry it with
  | None => UB
  | Some p =>
      match node_at (i_buckets it) p with
      | None => UB
      | Some e => Ok (m_key e)
      end
  end.

(** [ValueIterator::operator*]. *)
Definition ValueIterator_deref (it : HashIterator) : result V :=
  match GetCurrentEntry it with
  | None => UB
  | Some p =>
      match node_at (i_buckets it) p with
      | None => UB
      | Some e => Ok (m_value e)
      end
  end.

(** [EntryIterator::operator*]. *)
Definition EntryIterator_deref (it : HashIterator) : result Entry :=
  match GetCurrentEntry it with
  | None => UB
  | Some p =>
      match node_at (i_buckets it) p with
      | None => UB
      | Some e => Ok e
      end
  end.

(** The views: [GetKeys().begin()] and [GetKeys().end()], and likewise for
    the two other collections, which share the cursor. *)
Definition begin_ (t : HashMap) : result HashIterator :=
  HashIterator_new (m_buckets t) (m_capacity t).

Definition end_ : HashIterator := HashIterator_end.

(** The range-for loop of a caller,
    [for (it = begin(); it != end(); ++it) visit( *it )]:
    the elements visited, one per cursor step. *)
Fixpoint for_each {A : Type} (deref : HashIterator → result A) (fuel : nat)
    (it : HashIterator) : result (list A) :=
  if operator_ne it end_ then
    match fuel with
    | O => Timeout
    | S fuel' =>
        x ← deref it;
        it' ← operator_incr it;
        rest ← for_each deref fuel' it';
        Ok (x :: rest)
    end
  else Ok [].

Definition iterate_keys (fuel : nat) (t : HashMap) : result (list K) :=
  it ← begin_ t; for_each KeyIterator_deref fuel it.

Definition iterate_values (fuel : nat) (t : HashMap) : result (list V) :=
  it ← begin_ t; for_each ValueIterator_deref fuel it.

Definition iterate_entries (fuel : nat) (t : HashMap) : result (list Entry) :=
  it ← begin_ t; for_each EntryIterator_deref fuel it.

(** ** The abstract content of a table, and its invariant *)

(** Every entry of a table: the chain of slot 0, then of slot 1, ... *)
Definition entries (t : HashMap) : list Entry := concat (m_buckets t).

(** Their keys, in that order. *)
Definition keys (t : HashMap) : list K := m_key <$> entries t.

(** [hash(key) % capacity], as an index. *)
Definition bucket_index (capacity : Z) (key : K) : nat :=
  Z.to_nat (hasher key mod capacity).

(** An entry sits in slot [i] of a table of the given capacity, with the
    hash code of its key cached. *)
Definition entry_ok (capacity : Z) (i : nat) (e : Entry) : Prop :=
  m_hashCode e = hasher (m_key e) ∧ bucket_index capacity (m_key e) = i.

(** The load factor lies in (0, 1]. *)
Definition loadFactor_ok (q : Q) : Prop :=
  0 < Qnum q ∧ Qnum q <= Z.pos (Qden q).

(** What holds of a table at every point of an insertion, the moment between
    the increment of [m_count] and the growth included. *)
Record wf0 (t : HashMap) : Prop := {
  wf_capacity : 0 < m_capacity t < size_max;
  wf_length : length (m_buckets t) = Z.to_nat (m_capacity t);
  wf_entry : ∀ i chain,
    m_buckets t !! i = Some chain → Forall (entry_ok (m_capacity t) i) chain;
  wf_nodup : NoDup (keys t);
  wf_count : m_count t = Z.of_nat (length (entries t));
  wf_loadFactor : loadFactor_ok (m_loadFactor t);
  wf_maxCount : m_maxCount t = maxCountOf (m_loadFactor t) (m_capacity t);
  (** one doubling leaves room for at least one entry *)
  wf_regrow : 1 <= maxCountOf (m_loadFactor t) (2 * m_capacity t)
}.

(** The invariant of a table between two calls. *)
Definition wf (t : HashMap) : Prop := wf0 t ∧ m_count t <= m_maxCount t.

(** The read path of [operator[]]: locate the bucket, walk the chain, read
    the value of the node found. *)
Definition lookup_value (t : HashMap) (key : K) : result (option V) :=
  bucket ← GetBucket t key;
  foundEntry ← GetFromBucket t bucket key;
  Ok (depth ← foundEntry; ref_get t (bucket, depth)).

(** The key and the value of an entry. *)
Definition pair_of (e : Entry) : K * V := (m_key e, m_value e).

(** The finite map a table stands for. *)
Definition to_map (t : HashMap) : gmap K V :=
  list_to_map (pair_of <$> entries t).

(** ** Definitions for the statements and their proofs *)

(** The table right after [PlaceInBucket] has linked a new node at the end of
    the chain of its key and incremented [m_count], before the threshold is
    looked at. *)
Definition appended (t : HashMap) (k : K) (v : V) : HashMap :=
  let i := bucket_index (m_capacity t) k in
  set_count
    (set_buckets t
       (<[i := default [] (m_buckets t !! i) ++ [Entry_new k v]]> (m_buckets t)))
    (wrap (m_count t + 1)).

(** The bucket array in which every entry of [es] sits in the slot of its
    key, in the order of [es]. *)
Definition dist (capacity : Z) (es : list Entry) : list (list Entry) :=
  (λ j, filter (λ e, bucket_index capacity (m_key e) = j) es)
    <$> seq 0 (Z.to_nat capacity).

(** The table with that bucket array. *)
Definition dist_table (q : Q) (capacity : Z) (es : list Entry) : HashMap :=
  {| m_buckets := dist capacity es;
     m_capacity := capacity;
     m_count := Z.of_nat (length es);
     m_loadFactor := q;
     m_maxCount := maxCountOf q capacity |}.

(** What [Reallocate] builds: the same entries, in a table twice as large. *)
Definition rehashed (t : HashMap) : HashMap :=
  dist_table (m_loadFactor t) (2 * m_capacity t) (entries t).

(** The hash code cached in an entry is the hash code of its key. *)
Definition hash_ok (e : Entry) : Prop := m_hashCode e = hasher (m_key e).

(** What [Place] leaves: one function for the three cases. *)
Definition placed (t : HashMap) (k : K) (v : V) : bool * HashMap :=
  match Place 1 t k v with
  | Ok r => r
  | _ => (false, t)
  end.

(** The first non-empty slot at or after slot [j], if any. *)
Fixpoint find_from (rest : list (list Entry)) (j : nat) : option nat :=
  match rest with
  | [] => None
  | [] :: rest' => find_from rest' (S j)
  | (_ :: _) :: _ => Some j
  end.

(** The same, by index into the whole bucket array. *)
Definition next_nonempty (bs : list (list Entry)) (j : nat) : option nat :=
  find_from (drop j bs) j.

(** A cursor over the whole of a bucket array. *)
Definition cursor (bs : list (list Entry)) (index : Z) (curr : NodePtr)
    : HashIterator :=
  {| i_buckets := bs; i_capacity := Z.of_nat (length bs);
     m_bucketIndex := index; m_currEntry := curr |}.

(** Where the scan for a non-empty slot stops when it starts at slot [j]:
    on the head of the first non-empty slot, or past the array on null. *)
Definition landing (bs : list (list Entry)) (j : nat) : HashIterator :=
  match next_nonempty bs j with
  | Some j' => cursor bs (Z.of_nat j') (Some (j', 0%nat))
  | None => cursor bs (Z.of_nat (length bs)) None
  end.

(** A call of a caller: [Place(k, v)], [Remove(k)] or [Clear()]. *)
Inductive op : Type :=
  | OpPlace (k : K) (v : V)
  | OpRemove (k : K)
  | OpClear.

(** One call, its boolean result dropped. *)
Definition exec (fuel : nat) (o : op) (t : HashMap) : result HashMap :=
  match o with
  | OpPlace k v => r ← Place fuel t k v; Ok r.2
  | OpRemove k => r ← Remove t k; Ok r.2
  | OpClear => Clear t
  end.

(** A sequence of calls, in order. *)
Fixpoint run (fuel : nat) (ops : list op) (t : HashMap) : result HashMap :=
  match ops with
  | [] => Ok t
  | o :: ops' => t' ← exec fuel o t; run fuel ops' t'
  end.



(** The number of [operator++] steps a caller takes from [begin()] up to
    [end()]. *)
Definition cursor_steps (fuel : nat) (t : HashMap) : result Z :=
  visited ← (it ← begin_ t; for_each (λ _, Ok ()) fuel it);
  Ok (Z.of_nat (length visited)).

(** The statement [map[key] = value;]: [operator[]], then the assignment
    through the reference it returns. *)
Definition subscript_assign (fuel : nat) (t : HashMap) (key : K) (value : V)
    : result HashMap :=
  r ← operator_subscript fuel t key;
  Ok (ref_set r.2 r.1 value).

(** ** Chain walks *)

Lemma matches_hashed (k : K) (e : Entry) :
  m_hashCode e = hasher (m_key e) →
  matches (hasher k) k e = bool_decide (m_key e = k).
Proof.
  intros Hh. unfold matches. rewrite Hh.
  case_bool_decide as Hk; [|by rewrite andb_false_r].
  subst k. by rewrite Z.eqb_refl.
Qed.

Lemma matches_key (h : Z) (k : K) (e : Entry) :
  matches h k e = true → m_key e = k.
Proof.
  unfold matches. intros [_ Hb]%andb_true_iff. by apply bool_decide_eq_true in Hb.
Qed.

Lemma walk_absent (k : K) (chain : list Entry) :
  k ∉ (m_key <$> chain) →
  (∀ v, place_in_chain (hasher k) k v chain = None)
  ∧ get_in_chain (hasher k) k chain = None
  ∧ remove_in_chain (hasher k) k chain = None.
Proof.
  induction chain as [|e next IH]; [done|].
  rewrite fmap_cons, not_elem_of_cons. intros [Hne Hnext].
  destruct (IH Hnext) as (Hp & Hg & Hr). simpl.
  destruct (matches (hasher k) k e) eqn:Hm.
  - apply matches_key in Hm. congruence.
  - rewrite Hg, Hr. split; [|done]. intros v. by rewrite Hp.
Qed.

Lemma walk_present (k : K) (chain : list Entry) :
  Forall (λ e, m_hashCode e = hasher (m_key e)) chain →
  k ∈ (m_key <$> chain) →
  ∃ l1 e l2,
    chain = l1 ++ e :: l2 ∧ m_key e = k
    ∧ (∀ v, place_in_chain (hasher k) k v chain
            = Some (l1 ++ SetValue v e :: l2))
    ∧ get_in_chain (hasher k) k chain = Some (length l1)
    ∧ remove_in_chain (hasher k) k chain = Some (l1 ++ l2).
Proof.
  induction chain as [|e next IH]; [by intros _ ?%elem_of_nil|].
  intros [He Hnext]%Forall_cons Hin. simpl.
  rewrite (matches_hashed _ _ He).
  case_bool_decide as Hk.
  - by exists [], e, next.
  - rewrite fmap_cons, elem_of_cons in Hin.
    destruct Hin as [Hin|Hin]; [congruence|].
    destruct (IH Hnext Hin) as (l1 & e' & l2 & -> & Hk' & Hp & Hg & Hr).
    exists (e :: l1), e', l2. rewrite Hg, Hr. repeat split; try done.
    intros v. by rewrite Hp.
Qed.

(** ** The bucket array *)

Lemma concat_elem (bs : list (list Entry)) (e : Entry) :
  e ∈ concat bs ↔ ∃ i chain, bs !! i = Some chain ∧ e ∈ chain.
Proof.
  rewrite list_elem_of_In, in_concat. split.
  - intros (chain & [i Hi]%list_elem_of_In%list_elem_of_lookup & He).
    exists i, chain. by rewrite list_elem_of_In.
  - intros (i & chain & Hi & He). exists chain.
    rewrite <-!list_elem_of_In. split; [|done].
    apply list_elem_of_lookup. eauto.
Qed.

(** Replacing one chain: the rest of the content is untouched. *)
Lemma concat_update (bs : list (list Entry)) (i : nat) (c c' : list Entry) :
  bs !! i = Some c →
  ∃ rest, concat bs ≡ₚ c ++ rest ∧ concat (<[i := c']> bs) ≡ₚ c' ++ rest.
Proof.
  intros Hi. exists (concat (take i bs) ++ concat (drop (S i) bs)).
  pose proof (lookup_lt_Some _ _ _ Hi) as Hlt.
  rewrite insert_take_drop by done.
  rewrite <-(take_drop_middle bs i c Hi) at 1.
  rewrite !concat_app, !concat_cons. split.
  - by rewrite Permutation_app_swap_app.
  - by rewrite Permutation_app_swap_app.
Qed.

Lemma keys_pairs (t : HashMap) : (pair_of <$> entries t).*1 = keys t.
Proof. unfold keys. rewrite <-list_fmap_compose. done. Qed.

Lemma key_in_chain (t : HashMap) (i : nat) (chain : list Entry) (e : Entry) :
  m_buckets t !! i = Some chain → e ∈ chain → m_key e ∈ keys t.
Proof.
  intros Hi He. unfold keys. apply list_elem_of_fmap. exists e. split; [done|].
  apply concat_elem. eauto.
Qed.

Lemma bucket_index_lt (capacity : Z) (k : K) :
  0 < capacity → (bucket_index capacity k < Z.to_nat capacity)%nat.
Proof.
  intros Hc. unfold bucket_index.
  pose proof (Z.mod_pos_bound (hasher k) capacity Hc). lia.
Qed.

Lemma wf_bucket (t : HashMap) (k : K) :
  wf0 t → ∃ chain,
    m_buckets t !! bucket_index (m_capacity t) k = Some chain
    ∧ GetBucket t k = Ok (bucket_index (m_capacity t) k)
    ∧ Forall (λ e, m_hashCode e = hasher (m_key e)) chain
    ∧ (k ∈ keys t → k ∈ (m_key <$> chain)).
Proof.
  intros Hwf. pose proof (wf_capacity _ Hwf) as Hc.
  destruct (lookup_lt_is_Some_2 (m_buckets t) (bucket_index (m_capacity t) k))
    as [chain Hchain].
  { rewrite (wf_length _ Hwf). apply bucket_index_lt. lia. }
  exists chain. split; [done|]. split; [|split].
  - unfold GetBucket. case_decide; [lia|done].
  - eapply Forall_impl; [by eapply wf_entry|]. by intros e [? _].
  - intros (e & -> & (i & chain' & Hi & He)%concat_elem)%list_elem_of_fmap.
    pose proof (wf_entry _ Hwf _ _ Hi) as Hok.
    rewrite Forall_forall in Hok. destruct (Hok _ He) as [_ Hidx].
    rewrite Hidx, Hi in Hchain. simplify_eq.
    apply list_elem_of_fmap. eauto.
Qed.

(** The read path returns what the abstract map holds. *)
Lemma lookup_value_spec (t : HashMap) (k : K) :
  wf0 t → lookup_value t k = Ok (to_map t !! k).
Proof.
  intros Hwf. destruct (wf_bucket t k Hwf) as (chain & Hchain & Hb & Hh & Hin).
  unfold lookup_value, GetFromBucket, read_bucket. rewrite Hb. simpl.
  rewrite Hchain. simpl. f_equal.
  destruct (decide (k ∈ (m_key <$> chain))) as [Hk|Hk].
  - destruct (walk_present k chain Hh Hk)
      as (l1 & e & l2 & -> & Hke & _ & Hg & _).
    rewrite Hg. simpl. unfold ref_get, node_at. simpl. rewrite Hchain. simpl.
    rewrite list_lookup_middle by done. simpl. symmetry.
    apply elem_of_list_to_map_1.
    + rewrite keys_pairs. by apply wf_nodup.
    + apply list_elem_of_fmap. exists e. split; [by unfold pair_of; rewrite Hke|].
      apply concat_elem. exists (bucket_index (m_capacity t) k), (l1 ++ e :: l2).
      split; [done|]. apply elem_of_app. right. apply elem_of_cons. by left.
  - destruct (walk_absent k chain Hk) as (_ & -> & _). simpl.
    symmetry. apply not_elem_of_list_to_map_1. rewrite keys_pairs. tauto.
Qed.

Lemma count_spec (t : HashMap) : wf0 t → m_count t = Z.of_nat (size (to_map t)).
Proof.
  intros Hwf. unfold to_map. rewrite map_size_list_to_map.
  - rewrite length_fmap. by apply wf_count.
  - rewrite keys_pairs. by apply wf_nodup.
Qed.

(** ** Replacing one chain of a well-formed table *)

Lemma PlaceInBucket_unfold (fuel : nat) (t : HashMap) (bucket : nat)
    (key : K) (value : V) :
  PlaceInBucket fuel t bucket key value =
  (chain ← read_bucket t bucket;
   match place_in_chain (hasher key) key value chain with
   | Some chain' => Ok (true, set_buckets t (<[bucket := chain']> (m_buckets t)))
   | None =>
       let t1 :=
         set_count
           (set_buckets t (<[bucket := chain ++ [Entry_new key value]]> (m_buckets t)))
           (wrap (m_count t + 1)) in
       if decide (m_count t1 > m_maxCount t1) then
         match fuel with
         | O => Timeout
         | S fuel' =>
             t2 ← Reallocate_with (PlaceInBucket fuel') t1;
             Ok (false, t2)
         end
       else Ok (false, t1)
   end).
Proof. by destruct fuel. Qed.

Lemma to_map_perm (t : HashMap) (l : list Entry) :
  NoDup (keys t) → entries t ≡ₚ l → to_map t = list_to_map (pair_of <$> l).
Proof.
  intros Hnd Hp. unfold to_map. apply list_to_map_proper.
  - by rewrite keys_pairs.
  - by rewrite Hp.
Qed.

Lemma wf0_update (t : HashMap) (i : nat) (c c' : list Entry) (n : Z) :
  wf0 t →
  m_buckets t !! i = Some c →
  Forall (entry_ok (m_capacity t) i) c' →
  NoDup (m_key <$> concat (<[i := c']> (m_buckets t))) →
  n = Z.of_nat (length (concat (<[i := c']> (m_buckets t)))) →
  wf0 (set_count (set_buckets t (<[i := c']> (m_buckets t))) n).
Proof.
  intros Hwf Hi Hc' Hnd Hn. split; simpl; try by apply Hwf.
  - rewrite length_insert. by apply wf_length.
  - intros j chain Hj. destruct (decide (i = j)) as [<-|Hne].
    + rewrite list_lookup_insert_eq in Hj by (by eapply lookup_lt_Some).
      by simplify_eq.
    + rewrite list_lookup_insert_ne in Hj by done. by eapply wf_entry.
  - done.
  - done.
Qed.

(** *** Placing a key that is present: the value is overwritten *)

Lemma Place_present (t : HashMap) (k : K) (v : V) :
  wf t → k ∈ keys t →
  ∃ t', (∀ fuel, Place fuel t k v = Ok (true, t'))
    ∧ wf t'
    ∧ to_map t' = <[k := v]> (to_map t)
    ∧ keys t' = keys t
    ∧ m_capacity t' = m_capacity t
    ∧ m_count t' = m_count t
    ∧ m_loadFactor t' = m_loadFactor t
    ∧ m_maxCount t' = m_maxCount t.
Proof.
  intros [Hwf Hth] Hk.
  destruct (wf_bucket t k Hwf) as (chain & Hchain & Hb & Hh & Hin).
  destruct (walk_present k chain Hh (Hin Hk))
    as (l1 & e & l2 & -> & Hke & Hp & _ & _).
  set (i := bucket_index (m_capacity t) k) in *.
  set (c' := l1 ++ SetValue v e :: l2) in *.
  destruct (concat_update (m_buckets t) i _ c' Hchain) as (rest & Hold & Hnew).
  assert (Hkeys : m_key <$> concat (<[i := c']> (m_buckets t)) ≡ₚ keys t).
  { unfold keys, entries. rewrite Hnew, Hold. unfold c'.
    by rewrite !fmap_app, !fmap_cons. }
  assert (Hlen : length (concat (<[i := c']> (m_buckets t)))
                 = length (entries t)).
  { unfold entries. rewrite Hnew, Hold. unfold c'.
    by rewrite !length_app. }
  assert (Hwf' : wf0 (set_buckets t (<[i := c']> (m_buckets t)))).
  { replace (set_buckets t (<[i := c']> (m_buckets t)))
      with (set_count (set_buckets t (<[i := c']> (m_buckets t))) (m_count t))
      by done.
    eapply wf0_update; [done|done| | |].
    - pose proof (wf_entry _ Hwf _ _ Hchain) as Hok. unfold c'.
      rewrite !Forall_app, !Forall_cons in Hok |- *.
      destruct Hok as (? & [? ?] & ?). repeat split; done.
    - rewrite Hkeys. by apply wf_nodup.
    - rewrite Hlen. by apply wf_count. }
  exists (set_buckets t (<[i := c']> (m_buckets t))). split.
  { intros fuel. unfold Place. rewrite Hb. simpl. rewrite PlaceInBucket_unfold.
    unfold read_bucket. rewrite Hchain. simpl. by rewrite Hp. }
  split; [by split|]. split; [|split]; [| |done].
  - rewrite (to_map_perm _ (Entry_new k v :: (l1 ++ l2 ++ rest))).
    + rewrite (to_map_perm t (e :: (l1 ++ l2 ++ rest))).
      * rewrite !fmap_cons.
        change (pair_of (Entry_new k v)) with (k, v).
        change (pair_of e) with (m_key e, m_value e).
        by rewrite !list_to_map_cons, Hke, insert_insert_eq.
      * by apply wf_nodup.
      * unfold entries. rewrite Hold.
        rewrite <-app_assoc. simpl. by rewrite <-Permutation_middle.
    + unfold keys, entries. simpl. rewrite Hkeys. by apply wf_nodup.
    + unfold entries. simpl. rewrite Hnew. unfold c'.
      rewrite <-app_assoc. simpl. rewrite <-Permutation_middle.
      assert (SetValue v e = Entry_new k v) as ->; [|done].
      pose proof (wf_entry _ Hwf _ _ Hchain) as Hok.
      rewrite Forall_app, Forall_cons in Hok. destruct Hok as (_ & [Hhe _] & _).
      unfold SetValue, Entry_new. rewrite Hhe, Hke. done.
  - unfold keys, entries. simpl.
    pose proof (lookup_lt_Some _ _ _ Hchain) as Hlt.
    rewrite insert_take_drop by done.
    rewrite <-(take_drop_middle (m_buckets t) i _ Hchain) at 3.
    rewrite !concat_app, !concat_cons, !fmap_app. unfold c'.
    by rewrite !fmap_app, !fmap_cons.
Qed.

(** *** Placing a key that is absent: a node is appended to its chain *)

Lemma wrap_small (z : Z) : 0 <= z < size_max → wrap z = z.
Proof. intros Hz. unfold wrap. by apply Z.mod_small. Qed.

Lemma appended_spec (t : HashMap) (k : K) (v : V) :
  wf0 t → k ∉ keys t → m_count t + 1 < size_max →
  wf0 (appended t k v)
  ∧ entries (appended t k v) ≡ₚ entries t ++ [Entry_new k v]
  ∧ m_count (appended t k v) = m_count t + 1.
Proof.
  intros Hwf Hk Hsz.
  destruct (wf_bucket t k Hwf) as (chain & Hchain & _ & _ & _).
  unfold appended. rewrite Hchain. simpl.
  set (i := bucket_index (m_capacity t) k) in *.
  destruct (concat_update (m_buckets t) i _ (chain ++ [Entry_new k v]) Hchain)
    as (rest & Hold & Hnew).
  assert (Hent : concat (<[i := chain ++ [Entry_new k v]]> (m_buckets t))
                 ≡ₚ entries t ++ [Entry_new k v]).
  { unfold entries. rewrite Hnew, Hold.
    rewrite <-!app_assoc. apply Permutation_app_head, Permutation_app_comm. }
  assert (Hcnt : wrap (m_count t + 1) = m_count t + 1).
  { apply wrap_small. pose proof (wf_count _ Hwf). lia. }
  split; [|split; [done|done]].
  apply (wf0_update t i chain); [done|done| | |].
  - apply Forall_app. split; [by eapply wf_entry|].
    apply Forall_singleton. by split.
  - rewrite Hent, fmap_app. simpl. apply NoDup_app. split; [by apply wf_nodup|].
    split; [|apply NoDup_singleton].
    intros k' Hk' ->%list_elem_of_singleton. done.
  - rewrite Hcnt, Hent, length_app, (wf_count _ Hwf). simpl. lia.
Qed.

Lemma to_map_appended (t t' : HashMap) (k : K) (v : V) :
  wf0 t → NoDup (keys t') → entries t' ≡ₚ entries t ++ [Entry_new k v] →
  to_map t' = <[k := v]> (to_map t).
Proof.
  intros Hwf Hnd Hent.
  rewrite (to_map_perm t' (Entry_new k v :: entries t)); [done|done|].
  by rewrite Hent, Permutation_app_comm.
Qed.

Lemma PlaceInBucket_absent (fuel : nat) (t : HashMap) (k : K) (v : V) :
  wf0 t → k ∉ keys t →
  Place fuel t k v =
    let t1 := appended t k v in
    if decide (m_count t1 > m_maxCount t1) then
      match fuel with
      | O => Timeout
      | S fuel' =>
          t2 ← Reallocate_with (PlaceInBucket fuel') t1; Ok (false, t2)
      end
    else Ok (false, t1).
Proof.
  intros Hwf Hk.
  destruct (wf_bucket t k Hwf) as (chain & Hchain & Hb & _ & _).
  unfold Place. rewrite Hb. simpl. rewrite PlaceInBucket_unfold.
  unfold read_bucket, appended. rewrite Hchain. simpl.
  assert (Hkc : k ∉ (m_key <$> chain)).
  { intros (e & -> & He)%list_elem_of_fmap. apply Hk.
    by eapply key_in_chain. }
  destruct (walk_absent k chain Hkc) as (Hp & _ & _). by rewrite Hp.
Qed.

(** ** The threshold *)

Lemma maxCountOf_div (q : Q) (c : Z) :
  loadFactor_ok q → 0 <= c →
  maxCountOf q c = (Qnum q * c) / Z.pos (Qden q).
Proof.
  intros [Hq _] Hc. unfold maxCountOf. apply Z.quot_div_nonneg; lia.
Qed.

Lemma maxCountOf_bounds (q : Q) (c : Z) :
  loadFactor_ok q → 0 <= c → 0 <= maxCountOf q c <= c.
Proof.
  intros Hq Hc. rewrite maxCountOf_div by done. destruct Hq as [Hq1 Hq2]. split.
  - apply Z.div_pos; lia.
  - apply Z.div_le_upper_bound; [lia|nia].
Qed.

(** Doubling the capacity at least doubles the threshold. *)
Lemma maxCountOf_double (q : Q) (c : Z) :
  loadFactor_ok q → 0 <= c → 2 * maxCountOf q c <= maxCountOf q (2 * c).
Proof.
  intros Hq Hc. rewrite !maxCountOf_div by (done || lia).
  apply Z.div_le_lower_bound; [lia|].
  pose proof (Z.mul_div_le (Qnum q * c) (Z.pos (Qden q))). lia.
Qed.

(** ** Growth *)

Lemma dist_length (c : Z) (es : list Entry) :
  length (dist c es) = Z.to_nat c.
Proof. unfold dist. by rewrite length_fmap, length_seq. Qed.

Lemma dist_lookup (c : Z) (es : list Entry) (j : nat) :
  (j < Z.to_nat c)%nat →
  dist c es !! j = Some (filter (λ e, bucket_index c (m_key e) = j) es).
Proof.
  intros Hj. unfold dist. rewrite list_lookup_fmap, lookup_seq_lt by done. done.
Qed.

Lemma dist_nil (c : Z) : dist c [] = replicate (Z.to_nat c) [].
Proof.
  apply list_eq. intros j. destruct (decide (j < Z.to_nat c)%nat).
  - rewrite dist_lookup by done. symmetry. by apply lookup_replicate.
  - rewrite !lookup_ge_None_2; [done| |].
    + rewrite length_replicate. lia.
    + rewrite dist_length. lia.
Qed.

Lemma dist_snoc (c : Z) (es : list Entry) (e : Entry) :
  0 < c →
  dist c (es ++ [e]) =
    <[bucket_index c (m_key e) :=
        default [] (dist c es !! bucket_index c (m_key e)) ++ [e]]> (dist c es).
Proof.
  intros Hc. pose proof (bucket_index_lt c (m_key e) Hc) as Hlt.
  apply list_eq. intros j. destruct (decide (j < Z.to_nat c)%nat) as [Hj|Hj].
  - rewrite dist_lookup by done. rewrite filter_app.
    destruct (decide (bucket_index c (m_key e) = j)) as [<-|Hne].
    + rewrite list_lookup_insert_eq by (by rewrite dist_length).
      rewrite (dist_lookup c es) by done. simpl.
      by rewrite filter_cons_True.
    + rewrite list_lookup_insert_ne by done.
      rewrite (dist_lookup c es) by done.
      by rewrite filter_cons_False, app_nil_r.
  - rewrite !lookup_ge_None_2; [done| |].
    + rewrite length_insert, dist_length. lia.
    + rewrite dist_length. lia.
Qed.

Lemma concat_replicate_nil (n : nat) : concat (replicate n ([] : list Entry)) = [].
Proof. induction n; [done|]. simpl. done. Qed.

Lemma concat_dist (c : Z) (es : list Entry) : 0 < c → concat (dist c es) ≡ₚ es.
Proof.
  intros Hc. induction es as [|e es IH] using rev_ind.
  - by rewrite dist_nil, concat_replicate_nil.
  - rewrite dist_snoc by done.
    pose proof (bucket_index_lt c (m_key e) Hc) as Hlt.
    rewrite (dist_lookup c es) by done. simpl.
    edestruct (concat_update (dist c es)) as (rest & Hold & Hnew);
      [by apply dist_lookup|].
    rewrite Hnew. transitivity (concat (dist c es) ++ [e]); [|by rewrite IH].
    rewrite Hold, <-!app_assoc.
    apply Permutation_app_head, Permutation_app_comm.
Qed.

Lemma dist_table_wf0 (q : Q) (c : Z) (es : list Entry) :
  0 < c < size_max → loadFactor_ok q → 1 <= maxCountOf q (2 * c) →
  NoDup (m_key <$> es) → Forall hash_ok es →
  wf0 (dist_table q c es).
Proof.
  intros Hc Hq Hre Hnd Hh. split; simpl; try done.
  - apply dist_length.
  - intros i chain Hi.
    assert (i < Z.to_nat c)%nat as Hlt.
    { rewrite <-(dist_length c es). by eapply lookup_lt_Some. }
    rewrite dist_lookup in Hi by done. simplify_eq.
    apply Forall_forall. intros e [Hidx He]%list_elem_of_filter.
    rewrite Forall_forall in Hh. split; [by apply Hh|done].
  - unfold keys, entries. simpl. rewrite concat_dist by lia. done.
  - unfold entries. simpl. rewrite concat_dist by lia. done.
Qed.

Lemma entries_hash_ok (t : HashMap) : wf0 t → Forall hash_ok (entries t).
Proof.
  intros Hwf. apply Forall_forall.
  intros e (i & chain & Hi & He)%concat_elem.
  pose proof (wf_entry _ Hwf _ _ Hi) as Hok. rewrite Forall_forall in Hok.
  by destruct (Hok _ He).
Qed.

(** *** The two loops of [Reallocate] *)

Lemma realloc_chain_ok (fuel : nat) (q : Q) (c : Z) (chain done : list Entry) :
  0 < c →
  NoDup (m_key <$> (done ++ chain)) →
  Forall hash_ok chain →
  Z.of_nat (length (done ++ chain)) <= maxCountOf q c →
  Z.of_nat (length (done ++ chain)) < size_max →
  realloc_chain (PlaceInBucket fuel) chain (dist_table q c done)
  = Ok (dist_table q c (done ++ chain)).
Proof.
  intros Hc. revert done.
  induction chain as [|e next IH]; intros done Hnd Hh Hmax Hsz.
  { by rewrite app_nil_r. }
  apply Forall_cons in Hh as [He Hnext].
  pose proof (bucket_index_lt c (m_key e) Hc) as Hlt.
  assert (Hsnoc : Z.of_nat (length done) + 1
                  <= Z.of_nat (length (done ++ e :: next))).
  { rewrite !length_app. simpl. lia. }
  assert (Hfresh : m_key e ∉ (m_key <$> done)).
  { rewrite fmap_app in Hnd. apply NoDup_app in Hnd as (_ & Hdisj & _).
    intros Hin. apply (Hdisj _ Hin). rewrite fmap_cons. apply elem_of_cons.
    by left. }
  simpl. unfold GetBucket. simpl. case_decide; [lia|]. simpl.
  rewrite PlaceInBucket_unfold. unfold read_bucket. simpl.
  fold (bucket_index c (m_key e)). rewrite dist_lookup by done. simpl.
  destruct (walk_absent (m_key e)
              (filter (λ e0, bucket_index c (m_key e0) = bucket_index c (m_key e))
                 done)) as (Hp & _ & _).
  { intros (e' & Hk & [_ He']%list_elem_of_filter)%list_elem_of_fmap.
    apply Hfresh. apply list_elem_of_fmap. eauto. }
  rewrite Hp.
  assert (Hlen1 : Z.of_nat (length (done ++ [e])) = Z.of_nat (length done) + 1).
  { rewrite length_app. simpl. lia. }
  assert (Hwrap : wrap (Z.of_nat (length done) + 1)
                  = Z.of_nat (length (done ++ [e]))).
  { rewrite wrap_small; lia. }
  simpl. rewrite Hwrap. case_decide; [lia|]. simpl.
  assert (Hstep :
    set_count
      (set_buckets (dist_table q c done)
         (<[bucket_index c (m_key e) :=
              filter (λ e0, bucket_index c (m_key e0) = bucket_index c (m_key e))
                done ++ [Entry_new (m_key e) (m_value e)]]> (dist c done)))
      (Z.of_nat (length (done ++ [e])))
    = dist_table q c (done ++ [e])).
  { unfold dist_table, set_count, set_buckets. simpl. f_equal.
    rewrite dist_snoc by done. rewrite dist_lookup by done. simpl.
    do 3 f_equal. unfold Entry_new. destruct e; simpl in *. by rewrite He. }
  rewrite Hstep. specialize (IH (done ++ [e])).
  rewrite <-!app_assoc in IH. by apply IH.
Qed.

Lemma realloc_buckets_unfold (place : HashMap → nat → K → V → result (bool * HashMap))
    (n : nat) (oldBuckets : list (list Entry)) (i : Z) (t : HashMap) :
  realloc_buckets place n oldBuckets i t =
  if decide (i < m_capacity t / 2) then
    match n with
    | O => Timeout
    | S n' =>
        match oldBuckets !! Z.to_nat i with
        | None => UB
        | Some chain =>
            t' ← realloc_chain place chain t;
            realloc_buckets place n' oldBuckets (wrap (i + 1)) t'
        end
    end
  else Ok t.
Proof. by destruct n. Qed.

Lemma realloc_buckets_ok (fuel : nat) (q : Q) (old : list (list Entry)) :
  (0 < length old)%nat →
  2 * Z.of_nat (length old) < size_max →
  NoDup (m_key <$> concat old) →
  Forall hash_ok (concat old) →
  Z.of_nat (length (concat old)) <= maxCountOf q (2 * Z.of_nat (length old)) →
  Z.of_nat (length (concat old)) < size_max →
  ∀ m i n, (i + m = length old)%nat → (m < n)%nat →
    realloc_buckets (PlaceInBucket fuel) n old (Z.of_nat i)
      (dist_table q (2 * Z.of_nat (length old)) (concat (take i old)))
    = Ok (dist_table q (2 * Z.of_nat (length old)) (concat old)).
Proof.
  intros Hpos Hcap Hnd Hh Hmax Hsz m.
  induction m as [|m IH]; intros i n Him Hmn.
  - rewrite realloc_buckets_unfold. simpl.
    rewrite Z.mul_comm, Z.div_mul by lia. case_decide; [lia|].
    by rewrite take_ge by lia.
  - rewrite realloc_buckets_unfold. simpl.
    rewrite (Z.mul_comm 2), Z.div_mul by lia. rewrite (Z.mul_comm _ 2).
    case_decide; [|lia]. destruct n as [|n]; [lia|].
    rewrite Nat2Z.id.
    destruct (lookup_lt_is_Some_2 old i) as [chain Hchain]; [lia|].
    rewrite Hchain.
    assert (Htake : concat (take (S i) old) = concat (take i old) ++ chain).
    { rewrite (take_S_r _ _ _ Hchain), concat_app. simpl. by rewrite app_nil_r. }
    assert (Hsplit : concat old
                     = concat (take (S i) old) ++ concat (drop (S i) old)).
    { by rewrite <-concat_app, take_drop. }
    rewrite realloc_chain_ok.
    + simpl. rewrite <-Htake.
      replace (wrap (Z.of_nat i + 1)) with (Z.of_nat (S i))
        by (rewrite wrap_small; lia).
      apply IH; lia.
    + lia.
    + rewrite <-Htake. rewrite Hsplit, fmap_app in Hnd.
      by apply NoDup_app in Hnd as (? & _ & _).
    + rewrite Hsplit, Htake, !Forall_app in Hh. tauto.
    + rewrite <-Htake. rewrite Hsplit, length_app in Hmax. lia.
    + rewrite <-Htake. rewrite Hsplit, length_app in Hsz. lia.
Qed.

(** [Reallocate], when the doubled threshold has room for every entry:
    no insertion of the loop grows the table again. *)
Lemma Reallocate_ok (fuel : nat) (t : HashMap) :
  wf0 t →
  2 * m_capacity t < size_max →
  m_count t <= maxCountOf (m_loadFactor t) (2 * m_capacity t) →
  Reallocate fuel t = Ok (rehashed t).
Proof.
  intros Hwf Hcap Hroom. unfold Reallocate, Reallocate_with, rehashed.
  pose proof (wf_capacity _ Hwf) as Hc. pose proof (wf_length _ Hwf) as Hlen.
  pose proof (wf_count _ Hwf) as Hcnt.
  assert (Hc2 : 2 * m_capacity t = 2 * Z.of_nat (length (m_buckets t))) by lia.
  rewrite (Z.mul_comm _ 2), wrap_small by lia.
  rewrite <-dist_nil. rewrite Hc2.
  change {| m_buckets := dist (2 * Z.of_nat (length (m_buckets t))) [];
            m_capacity := 2 * Z.of_nat (length (m_buckets t));
            m_count := 0;
            m_loadFactor := m_loadFactor t;
            m_maxCount := maxCountOf (m_loadFactor t)
                            (2 * Z.of_nat (length (m_buckets t))) |}
    with (dist_table (m_loadFactor t) (2 * Z.of_nat (length (m_buckets t)))
            (concat (take 0 (m_buckets t)))).
  unfold entries.
  apply (realloc_buckets_ok fuel _ _) with (m := length (m_buckets t)) (i := 0%nat);
    try lia.
  - by apply wf_nodup.
  - by apply entries_hash_ok.
  - rewrite <-Hc2. unfold entries in Hcnt. lia.
  - unfold entries in Hcnt. pose proof (maxCountOf_bounds _ (2 * m_capacity t)
      (wf_loadFactor _ Hwf)). lia.
Qed.

Lemma rehashed_spec (t : HashMap) :
  wf0 t →
  2 * m_capacity t < size_max →
  m_count t <= maxCountOf (m_loadFactor t) (2 * m_capacity t) →
  wf (rehashed t)
  ∧ entries (rehashed t) ≡ₚ entries t
  ∧ m_count (rehashed t) = m_count t.
Proof.
  intros Hwf Hcap Hroom. pose proof (wf_capacity _ Hwf) as Hc.
  pose proof (wf_loadFactor _ Hwf) as Hq.
  split; [split|split].
  - apply dist_table_wf0; [lia|done| |by apply wf_nodup|by apply entries_hash_ok].
    pose proof (maxCountOf_double _ (2 * m_capacity t) Hq).
    pose proof (wf_regrow _ Hwf). lia.
  - simpl. rewrite <-(wf_count _ Hwf). done.
  - unfold entries at 1. simpl. apply concat_dist. lia.
  - simpl. by rewrite (wf_count _ Hwf).
Qed.

(** ** Place *)

Lemma keys_to_map (t : HashMap) (k : K) :
  k ∈ keys t ↔ is_Some (to_map t !! k).
Proof.
  rewrite <-keys_pairs. rewrite <-not_eq_None_Some.
  unfold to_map. rewrite <-not_elem_of_list_to_map.
  destruct (decide (k ∈ (pair_of <$> entries t).*1)); naive_solver.
Qed.

Lemma Place_absent_fit (fuel : nat) (t : HashMap) (k : K) (v : V) :
  wf t → k ∉ keys t → m_count t < m_maxCount t →
  Place fuel t k v = Ok (false, appended t k v)
  ∧ wf (appended t k v)
  ∧ to_map (appended t k v) = <[k := v]> (to_map t)
  ∧ m_count (appended t k v) = m_count t + 1.
Proof.
  intros [Hwf Hth] Hk Hlt.
  pose proof (maxCountOf_bounds _ (m_capacity t) (wf_loadFactor _ Hwf)) as Hb.
  pose proof (wf_capacity _ Hwf) as Hc. pose proof (wf_maxCount _ Hwf) as Hm.
  destruct (appended_spec t k v Hwf Hk) as (Hwf1 & Hent & Hcnt); [lia|].
  assert (Hmax : m_maxCount (appended t k v) = m_maxCount t) by done.
  split; [|split; [|split]].
  - rewrite PlaceInBucket_absent by done. cbv zeta.
    case_decide; [lia|done].
  - split; [done|lia].
  - apply to_map_appended; [done|by apply wf_nodup|done].
  - done.
Qed.

Lemma Place_absent_grow (fuel : nat) (t : HashMap) (k : K) (v : V) :
  wf t → k ∉ keys t → m_count t = m_maxCount t →
  2 * m_capacity t < size_max →
  Place (S fuel) t k v = Ok (false, rehashed (appended t k v))
  ∧ wf (rehashed (appended t k v))
  ∧ to_map (rehashed (appended t k v)) = <[k := v]> (to_map t)
  ∧ m_count (rehashed (appended t k v)) = m_count t + 1.
Proof.
  intros [Hwf Hth] Hk Heq Hcap.
  pose proof (wf_loadFactor _ Hwf) as Hq.
  pose proof (maxCountOf_bounds _ (m_capacity t) Hq) as Hb.
  pose proof (maxCountOf_double _ (m_capacity t) Hq) as Hd.
  pose proof (wf_regrow _ Hwf) as Hre.
  pose proof (wf_capacity _ Hwf) as Hc. pose proof (wf_maxCount _ Hwf) as Hm.
  destruct (appended_spec t k v Hwf Hk) as (Hwf1 & Hent & Hcnt); [lia|].
  assert (Hmax : m_maxCount (appended t k v) = m_maxCount t) by done.
  assert (Hcap1 : m_capacity (appended t k v) = m_capacity t) by done.
  assert (Hlf1 : m_loadFactor (appended t k v) = m_loadFactor t) by done.
  assert (Hroom : m_count (appended t k v)
    <= maxCountOf (m_loadFactor (appended t k v))
         (2 * m_capacity (appended t k v))).
  { rewrite Hcnt, Hlf1, Hcap1. lia. }
  destruct (rehashed_spec (appended t k v) Hwf1) as (Hwf2 & Hent2 & Hcnt2);
    [by rewrite Hcap1|done|].
  split; [|split; [done|split]].
  - rewrite PlaceInBucket_absent by done. cbv zeta.
    case_decide; [|lia].
    change (Reallocate_with (PlaceInBucket fuel) (appended t k v))
      with (Reallocate fuel (appended t k v)).
    rewrite Reallocate_ok; [done|done|by rewrite Hcap1|done].
  - apply to_map_appended; [done|by apply Hwf2|by rewrite Hent2].
  - by rewrite Hcnt2.
Qed.

Lemma Place_spec (fuel : nat) (t : HashMap) (k : K) (v : V) :
  wf t → 2 * m_capacity t < size_max →
  Place (S fuel) t k v = Ok (placed t k v)
  ∧ wf (placed t k v).2
  ∧ to_map (placed t k v).2 = <[k := v]> (to_map t)
  ∧ ((placed t k v).1 = bool_decide (k ∈ keys t))
  ∧ m_count (placed t k v).2
    = (if bool_decide (k ∈ keys t) then m_count t else m_count t + 1)
  ∧ m_loadFactor (placed t k v).2 = m_loadFactor t
  ∧ (m_capacity (placed t k v).2 = m_capacity t
     ∨ m_capacity (placed t k v).2 = 2 * m_capacity t).
Proof.
  intros Hwf Hcap. unfold placed. case_bool_decide as Hk.
  - destruct (Place_present t k v Hwf Hk)
      as (t' & Hp & Hwf' & Hmap & _ & Hc' & Hn' & Hq' & _).
    rewrite !Hp. simpl. by eauto 10.
  - destruct (decide (m_count t < m_maxCount t)) as [Hlt|Hge].
    + destruct (Place_absent_fit (S fuel) t k v Hwf Hk Hlt) as (-> & ? & ? & ?).
      destruct (Place_absent_fit 1 t k v Hwf Hk Hlt) as (-> & _).
      simpl. by eauto 10.
    + assert (m_count t = m_maxCount t) as Heq by (destruct Hwf; lia).
      destruct (Place_absent_grow fuel t k v Hwf Hk Heq Hcap) as (-> & ? & ? & ?).
      destruct (Place_absent_grow 0 t k v Hwf Hk Heq Hcap) as (-> & _).
      simpl. split; [done|]. split; [done|]. split; [done|]. split; [done|].
      split; [done|]. split; [done|]. by right.
Qed.

(** ** Remove *)

Lemma Remove_absent (t : HashMap) (k : K) :
  wf t → k ∉ keys t → Remove t k = Ok (false, t).
Proof.
  intros [Hwf _] Hk.
  destruct (wf_bucket t k Hwf) as (chain & Hchain & Hb & _ & _).
  unfold Remove, RemoveFromBucket, read_bucket. rewrite Hb. simpl.
  rewrite Hchain. simpl.
  assert (Hkc : k ∉ (m_key <$> chain)).
  { intros (e & -> & He)%list_elem_of_fmap. apply Hk. by eapply key_in_chain. }
  by destruct (walk_absent k chain Hkc) as (_ & _ & ->).
Qed.

Lemma Remove_present (t : HashMap) (k : K) :
  wf t → k ∈ keys t →
  ∃ t' l1 e l2,
    Remove t k = Ok (true, t')
    ∧ m_buckets t !! bucket_index (m_capacity t) k = Some (l1 ++ e :: l2)
    ∧ m_key e = k
    ∧ t' = set_count
             (set_buckets t
                (<[bucket_index (m_capacity t) k := l1 ++ l2]> (m_buckets t)))
             (m_count t - 1)
    ∧ wf t'
    ∧ to_map t' = delete k (to_map t).
Proof.
  intros [Hwf Hth] Hk.
  destruct (wf_bucket t k Hwf) as (chain & Hchain & Hb & Hh & Hin).
  destruct (walk_present k chain Hh (Hin Hk))
    as (l1 & e & l2 & -> & Hke & _ & _ & Hr).
  set (i := bucket_index (m_capacity t) k) in *.
  destruct (concat_update (m_buckets t) i _ (l1 ++ l2) Hchain)
    as (rest & Hold & Hnew).
  assert (Hperm : entries t ≡ₚ e :: (l1 ++ l2) ++ rest).
  { unfold entries. rewrite Hold, <-!app_assoc. simpl.
    by rewrite <-Permutation_middle. }
  assert (Hlen : Z.of_nat (length (entries t))
                 = Z.of_nat (length ((l1 ++ l2) ++ rest)) + 1).
  { rewrite Hperm. simpl. lia. }
  pose proof (wf_nodup _ Hwf) as Hnd. unfold keys in Hnd.
  rewrite Hperm, fmap_cons in Hnd. apply NoDup_cons in Hnd as [Hnk Hnd].
  pose proof (wf_count _ Hwf) as Hcnt.
  assert (Hwrap : wrap (m_count t - 1) = m_count t - 1).
  { apply wrap_small. pose proof (wf_capacity _ Hwf).
    pose proof (maxCountOf_bounds _ (m_capacity t) (wf_loadFactor _ Hwf)).
    pose proof (wf_maxCount _ Hwf). lia. }
  set (t' := set_count (set_buckets t (<[i := l1 ++ l2]> (m_buckets t)))
               (m_count t - 1)).
  assert (Hwf' : wf0 t').
  { apply (wf0_update t i (l1 ++ e :: l2)); [done|done| | |].
    - pose proof (wf_entry _ Hwf _ _ Hchain) as Hok.
      rewrite Forall_app, Forall_cons in Hok. rewrite Forall_app. tauto.
    - by rewrite Hnew.
    - rewrite Hnew. lia. }
  exists t', l1, e, l2. split; [|split; [done|split; [done|split; [done|split]]]].
  - unfold Remove, RemoveFromBucket, read_bucket. rewrite Hb. simpl.
    rewrite Hchain. simpl. rewrite Hr. by rewrite Hwrap.
  - split; [done|]. simpl. lia.
  - rewrite (to_map_perm t' ((l1 ++ l2) ++ rest));
      [|by apply Hwf'|by unfold entries; simpl; rewrite Hnew].
    rewrite (to_map_perm t _ (wf_nodup _ Hwf) Hperm).
    rewrite fmap_cons. change (pair_of e) with (m_key e, m_value e).
    rewrite list_to_map_cons, Hke, delete_insert_eq, delete_id; [done|].
    apply not_elem_of_list_to_map_1.
    rewrite <-list_fmap_compose. by rewrite <-Hke.
Qed.

(** ** Clear *)

Lemma clear_loop_ok (t : HashMap) :
  m_capacity t < size_max →
  ∀ n i bs, (i + n)%nat = length bs → Z.of_nat (length bs) = m_capacity t →
    clear_loop n (Z.of_nat i) (set_buckets t bs)
    = Ok (set_buckets t (take i bs ++ replicate n [])).
Proof.
  intros Hc n. induction n as [|n IH]; intros i bs Hin Hlen.
  - simpl. case_decide; [lia|]. by rewrite app_nil_r, take_ge by lia.
  - simpl. case_decide; [|lia]. rewrite Nat2Z.id.
    destruct (lookup_lt_is_Some_2 bs i) as [chain Hchain]; [lia|].
    rewrite Hchain.
    replace (wrap (Z.of_nat i + 1)) with (Z.of_nat (S i))
      by (rewrite wrap_small; lia).
    change (set_buckets (set_buckets t bs) (<[i:=[]]> bs))
      with (set_buckets t (<[i:=[]]> bs)).
    rewrite IH by (rewrite length_insert; lia).
    f_equal. f_equal.
    rewrite (take_S_r _ _ []) by (apply list_lookup_insert_eq; lia).
    rewrite take_insert_ge by lia. by rewrite <-app_assoc.
Qed.

(** [Clear] leaves the table its constructor builds at the same capacity. *)
Lemma Clear_spec (t : HashMap) :
  wf t → Clear t = Ok (HashMap_new (m_capacity t) (m_loadFactor t)).
Proof.
  intros [Hwf _]. unfold Clear.
  pose proof (wf_capacity _ Hwf) as Hc. pose proof (wf_length _ Hwf) as Hlen.
  pose proof (wf_maxCount _ Hwf) as Hm.
  pose proof (clear_loop_ok t ltac:(lia) (Z.to_nat (m_capacity t)) 0%nat
                (m_buckets t) ltac:(lia) ltac:(lia)) as Hloop.
  destruct t as [bs c n q m]. unfold set_buckets in Hloop. simpl in *.
  change (Z.of_nat 0) with 0 in Hloop. rewrite Hloop. simpl. unfold HashMap_new, set_count. simpl. by rewrite Hm.
Qed.

Lemma HashMap_new_entries (c : Z) (q : Q) : entries (HashMap_new c q) = [].
Proof. unfold entries. simpl. apply concat_replicate_nil. Qed.

(** A table straight from the constructor is well formed, for a positive
    capacity, a load factor in (0, 1], and a threshold that one doubling
    makes positive. *)
Lemma HashMap_new_wf (c : Z) (q : Q) :
  0 < c < size_max → loadFactor_ok q → 1 <= maxCountOf q (2 * c) →
  wf (HashMap_new c q).
Proof.
  intros Hc Hq Hre. split; [split|]; simpl; try done.
  - by rewrite length_replicate.
  - intros i chain [-> _]%lookup_replicate. constructor.
  - unfold keys. rewrite HashMap_new_entries. constructor.
  - by rewrite HashMap_new_entries.
  - apply maxCountOf_bounds; [done|lia].
Qed.


(** ** Cursors *)

Lemma next_nonempty_step (bs : list (list Entry)) (j : nat) (chain : list Entry) :
  bs !! j = Some chain →
  next_nonempty bs j =
    match chain with [] => next_nonempty bs (S j) | _ :: _ => Some j end.
Proof.
  intros Hj. unfold next_nonempty. rewrite (drop_S _ _ _ Hj). by destruct chain.
Qed.

Lemma next_nonempty_end (bs : list (list Entry)) (j : nat) :
  (length bs ≤ j)%nat → next_nonempty bs j = None.
Proof. intros Hj. unfold next_nonempty. by rewrite drop_ge. Qed.

Lemma next_nonempty_spec (bs : list (list Entry)) (j : nat) :
  match next_nonempty bs j with
  | Some j' =>
      (j ≤ j' < length bs)%nat
      ∧ (∃ e chain, bs !! j' = Some (e :: chain))
      ∧ (∀ i, (j ≤ i < j')%nat → bs !! i = Some [])
      ∧ concat (drop j bs) = concat (drop j' bs)
  | None =>
      (∀ i, (j ≤ i < length bs)%nat → bs !! i = Some [])
      ∧ concat (drop j bs) = []
  end.
Proof.
  remember (length bs - j)%nat as m eqn:Hm. revert j Hm.
  induction m as [|m IH]; intros j Hm.
  - rewrite next_nonempty_end by lia. split; [intros; lia|].
    by rewrite drop_ge by lia.
  - destruct (lookup_lt_is_Some_2 bs j) as [chain Hchain]; [lia|].
    rewrite (next_nonempty_step _ _ _ Hchain). destruct chain as [|e chain].
    + specialize (IH (S j) ltac:(lia)).
      destruct (next_nonempty bs (S j)) as [j'|].
      * destruct IH as (Hr & Hne & Hempty & Hcat). split; [lia|].
        split; [done|]. split.
        -- intros i Hi. destruct (decide (i = j)) as [->|]; [done|].
           apply Hempty. lia.
        -- by rewrite (drop_S _ _ _ Hchain).
      * destruct IH as (Hempty & Hcat). split.
        -- intros i Hi. destruct (decide (i = j)) as [->|]; [done|].
           apply Hempty. lia.
        -- by rewrite (drop_S _ _ _ Hchain).
    + split; [split; [lia|by eapply lookup_lt_Some]|].
      split; [by eauto|]. split; [intros; lia|done].
Qed.

Lemma scan_unfold (n : nat) (it : HashIterator) :
  scan n it =
  match m_currEntry it with
  | Some _ => Ok it
  | None =>
      let index := wrap (m_bucketIndex it + 1) in
      if decide (index >= i_capacity it) then
        Ok {| i_buckets := i_buckets it; i_capacity := i_capacity it;
              m_bucketIndex := index; m_currEntry := None |}
      else
        match n with
        | O => Timeout
        | S n' =>
            curr ← head_of (i_buckets it) index;
            scan n' {| i_buckets := i_buckets it; i_capacity := i_capacity it;
                       m_bucketIndex := index; m_currEntry := curr |}
        end
  end.
Proof. by destruct n. Qed.

Lemma scan_null (bs : list (list Entry)) :
  Z.of_nat (length bs) < size_max →
  ∀ m b n, (S b + m = length bs)%nat → (m ≤ n)%nat →
    scan n (cursor bs (Z.of_nat b) None) = Ok (landing bs (S b)).
Proof.
  intros Hsz m. induction m as [|m IH]; intros b n Hb Hn.
  - rewrite scan_unfold. simpl. rewrite wrap_small by lia.
    case_decide; [|lia]. unfold landing. rewrite next_nonempty_end by lia.
    unfold cursor. do 2 f_equal. lia.
  - rewrite scan_unfold. simpl. rewrite wrap_small by lia.
    case_decide; [lia|]. destruct n as [|n]; [lia|].
    unfold head_of. replace (Z.to_nat (Z.of_nat b + 1)) with (S b) by lia.
    destruct (lookup_lt_is_Some_2 bs (S b)) as [chain Hchain]; [lia|].
    rewrite Hchain. unfold landing.
    rewrite (next_nonempty_step _ _ _ Hchain).
    replace (Z.of_nat b + 1) with (Z.of_nat (S b)) by lia.
    destruct chain as [|e chain]; simpl.
    + by apply IH; lia.
    + by rewrite scan_unfold.
Qed.

(** [operator++] on a cursor that stands on a node. *)
Lemma operator_incr_node (bs : list (list Entry)) (b d : nat) (chain : list Entry) :
  Z.of_nat (length bs) < size_max →
  bs !! b = Some chain → (d < length chain)%nat →
  operator_incr (cursor bs (Z.of_nat b) (Some (b, d))) =
    Ok (if decide (S d < length chain)%nat
        then cursor bs (Z.of_nat b) (Some (b, S d))
        else landing bs (S b)).
Proof.
  intros Hsz Hb Hd. unfold operator_incr, GetNext, node_at. simpl.
  rewrite Hb. simpl.
  destruct (lookup_lt_is_Some_2 chain d Hd) as [e He]. rewrite He.
  case_decide as Hn.
  - destruct (lookup_lt_is_Some_2 chain (S d) Hn) as [e' ->]. simpl.
    by rewrite scan_unfold.
  - rewrite lookup_ge_None_2 by lia. simpl. rewrite Nat2Z.id.
    pose proof (lookup_lt_Some _ _ _ Hb).
    by apply (scan_null bs Hsz (length bs - S b)); lia.
Qed.

Lemma for_each_unfold {A : Type} (deref : HashIterator → result A)
    (fuel : nat) (it : HashIterator) :
  for_each deref fuel it =
  if operator_ne it end_ then
    match fuel with
    | O => Timeout
    | S fuel' =>
        x ← deref it;
        it' ← operator_incr it;
        rest ← for_each deref fuel' it';
        Ok (x :: rest)
    end
  else Ok [].
Proof. by destruct fuel. Qed.

Section for_each.
Context {A : Type} (f : Entry → A) (deref : HashIterator → result A).
Hypothesis deref_node : ∀ it p e,
  GetCurrentEntry it = Some p → node_at (i_buckets it) p = Some e →
  deref it = Ok (f e).

Lemma for_each_node (bs : list (list Entry)) :
  Z.of_nat (length bs) < size_max →
  ∀ fuel b d chain,
    bs !! b = Some chain → (d < length chain)%nat →
    (length (drop d chain ++ concat (drop (S b) bs)) ≤ fuel)%nat →
    for_each deref fuel (cursor bs (Z.of_nat b) (Some (b, d)))
    = Ok (f <$> (drop d chain ++ concat (drop (S b) bs))).
Proof.
  intros Hsz fuel. induction fuel as [|fuel IH]; intros b d chain Hb Hd Hlen.
  { rewrite length_app, length_drop in Hlen. lia. }
  destruct (lookup_lt_is_Some_2 chain d Hd) as [e He].
  rewrite for_each_unfold. simpl.
  rewrite (deref_node _ (b, d) e); [|done|]; last first.
  { unfold node_at. simpl. rewrite Hb. done. }
  simpl. rewrite (operator_incr_node bs b d chain) by done. simpl.
  rewrite (drop_S _ _ _ He) in Hlen |- *. simpl in Hlen.
  case_decide as Hn.
  - rewrite IH with (chain := chain); [done|done|done|lia].
  - rewrite (drop_ge chain (S d)) in Hlen |- * by lia. simpl in Hlen |- *.
    unfold landing. pose proof (next_nonempty_spec bs (S b)) as Hsp.
    destruct (next_nonempty bs (S b)) as [j|].
    + destruct Hsp as (Hj & (e' & chain' & Hj') & _ & Hcat).
      rewrite Hcat in Hlen |- *. rewrite (drop_S _ _ _ Hj') in Hlen |- *.
      simpl in Hlen.
      rewrite IH with (chain := e' :: chain'); [done|done|simpl; lia|].
      simpl. lia.
    + destruct Hsp as (_ & ->). by rewrite for_each_unfold.
Qed.

(** A full traversal, from [begin()] to [end()]: every entry, slot after
    slot and each chain from its head. *)
Lemma for_each_begin (t : HashMap) (fuel : nat) :
  wf0 t → (length (entries t) ≤ fuel)%nat →
  (it ← begin_ t; for_each deref fuel it) = Ok (f <$> entries t).
Proof.
  intros Hwf Hfuel. pose proof (wf_capacity _ Hwf) as Hc.
  pose proof (wf_length _ Hwf) as Hlen.
  assert (Hsz : Z.of_nat (length (m_buckets t)) < size_max) by lia.
  unfold begin_, HashIterator_new, head_of.
  destruct (lookup_lt_is_Some_2 (m_buckets t) 0) as [chain Hchain]; [lia|].
  change (Z.to_nat 0) with 0%nat. rewrite Hchain.
  replace (m_capacity t) with (Z.of_nat (length (m_buckets t))) by lia.
  assert (Hland :
    (match chain with [] => Ok None | _ :: _ => Ok (Some (0%nat, 0%nat)) end
     ≫= λ curr, scan (Z.to_nat (Z.of_nat (length (m_buckets t))))
                  (cursor (m_buckets t) 0 curr))
    = Ok (landing (m_buckets t) 0)).
  { unfold landing. rewrite (next_nonempty_step _ _ _ Hchain).
    destruct chain as [|e chain]; simpl.
    - change 0 with (Z.of_nat 0).
      by apply (scan_null _ Hsz (length (m_buckets t) - 1)); lia.
    - by rewrite scan_unfold. }
  unfold cursor in Hland. simpl in Hland.
  transitivity (Ok (landing (m_buckets t) 0) ≫= for_each deref fuel).
  { rewrite <-Hland. by destruct chain. }
  simpl. unfold landing, entries in *.
  pose proof (next_nonempty_spec (m_buckets t) 0) as Hsp.
  destruct (next_nonempty (m_buckets t) 0) as [j|].
  - destruct Hsp as (Hj & (e' & chain' & Hj') & _ & Hcat).
    rewrite drop_0 in Hcat. rewrite Hcat in Hfuel |- *.
    rewrite (drop_S _ _ _ Hj') in Hfuel |- *. simpl in Hfuel.
    rewrite (for_each_node _ Hsz fuel j 0 (e' :: chain')); [done|done| |].
    + simpl. lia.
    + simpl. lia.
  - destruct Hsp as (_ & Hcat). rewrite drop_0 in Hcat. rewrite Hcat.
    by rewrite for_each_unfold.
Qed.
End for_each.

(** ** operator[] *)

Lemma alter_lookup {A : Type} (g : A → A) (l : list A) (i : nat) (x : A) :
  l !! i = Some x → alter g i l = <[i := g x]> l.
Proof.
  intros Hi. apply list_eq. intros j. destruct (decide (i = j)) as [<-|Hne].
  - rewrite list_lookup_alter_eq, Hi.
    by rewrite list_lookup_insert_eq by (by eapply lookup_lt_Some).
  - by rewrite list_lookup_alter_ne, list_lookup_insert_ne.
Qed.

(** The read path on a key that is present: the node found holds the key,
    and assigning through its address is what [Place] does for that key. *)
Lemma locate_present (t : HashMap) (k : K) :
  wf t → k ∈ keys t →
  ∃ b d e,
    GetBucket t k = Ok b
    ∧ GetFromBucket t b k = Ok (Some d)
    ∧ node_at (m_buckets t) (b, d) = Some e
    ∧ m_key e = k
    ∧ to_map t !! k = Some (m_value e)
    ∧ (∀ fuel w, Place fuel t k w = Ok (true, ref_set t (b, d) w)).
Proof.
  intros [Hwf Hth] Hk.
  destruct (wf_bucket t k Hwf) as (chain & Hchain & Hb & Hh & Hin).
  destruct (walk_present k chain Hh (Hin Hk))
    as (l1 & e & l2 & -> & Hke & Hp & Hg & _).
  set (i := bucket_index (m_capacity t) k) in *.
  assert (Hnode : node_at (m_buckets t) (i, length l1) = Some e).
  { unfold node_at. simpl. rewrite Hchain. simpl.
    by rewrite list_lookup_middle. }
  assert (Hfind : GetFromBucket t i k = Ok (Some (length l1))).
  { unfold GetFromBucket, read_bucket. rewrite Hchain. simpl. by rewrite Hg. }
  assert (Hlk : lookup_value t k = Ok (Some (m_value e))).
  { unfold lookup_value. rewrite Hb. simpl. rewrite Hfind. simpl.
    unfold ref_get. by rewrite Hnode. }
  rewrite lookup_value_spec in Hlk by done.
  exists i, (length l1), e.
  split; [done|split; [done|split; [done|split; [done|split]]]].
  - congruence.
  - intros fuel w. unfold Place. rewrite Hb. simpl.
    rewrite PlaceInBucket_unfold. unfold read_bucket. rewrite Hchain. simpl.
    rewrite Hp. unfold ref_set. simpl.
    rewrite (alter_lookup _ _ _ _ Hchain).
    rewrite alter_app_r_alt by lia. rewrite Nat.sub_diag. done.
Qed.

Lemma locate_absent (t : HashMap) (k : K) :
  wf t → k ∉ keys t →
  ∃ b, GetBucket t k = Ok b ∧ GetFromBucket t b k = Ok None.
Proof.
  intros [Hwf _] Hk.
  destruct (wf_bucket t k Hwf) as (chain & Hchain & Hb & _ & _).
  exists (bucket_index (m_capacity t) k). split; [done|].
  unfold GetFromBucket, read_bucket. rewrite Hchain. simpl.
  assert (Hkc : k ∉ (m_key <$> chain)).
  { intros (e & -> & He)%list_elem_of_fmap. apply Hk. by eapply key_in_chain. }
  by destruct (walk_absent k chain Hkc) as (_ & -> & _).
Qed.

(** ** Sequences of calls *)



(** * The properties of the specification *)

(** C1. Round trip: once [Place(k, v)] has returned, [operator[]] finds the
    entry of [k], leaves the table as it is, and the value it refers to
    is [v]. *)
Theorem C1_place_then_lookup (fuel fuel' : nat) (t : HashMap) (k : K) (v : V) :
  wf t → 2 * m_capacity t < size_max →
  ∃ existed t' p,
    Place (S fuel) t k v = Ok (existed, t')
    ∧ operator_subscript fuel' t' k = Ok (p, t')
    ∧ ref_get t' p = Some v.
Proof.
  intros Hwf Hcap.
  destruct (Place_spec fuel t k v Hwf Hcap) as (Hp & Hwf' & Hmap & _).
  destruct (placed t k v) as [existed t']. simpl in *.
  assert (Hv : to_map t' !! k = Some v) by (by rewrite Hmap, lookup_insert_eq).
  assert (Hk : k ∈ keys t') by (by apply keys_to_map; rewrite Hv).
  destruct (locate_present t' k Hwf' Hk) as (b & d & e & Hb & Hg & Hn & _ & He & _).
  exists existed, t', (b, d). split; [done|]. split.
  - unfold operator_subscript. rewrite Hb. simpl. by rewrite Hg.
  - unfold ref_get. rewrite Hn. simpl. congruence.
Qed.


(** C4. Indexed access never reports absence.  It returns the address of a
    node that holds the key, through which the value can be assigned.  When
    the key is present the table is left as it is and the node holds the
    key's current value; when it is absent the table is the one [Place]
    leaves for the key and a default value: the count is one more, the
    capacity the same or doubled. *)
Theorem C4_subscript_never_absent (fuel : nat) (t : HashMap) (k : K) :
  wf t → 2 * m_capacity t < size_max →
  ∃ p t' e,
    operator_subscript (S fuel) t k = Ok (p, t')
    ∧ node_at (m_buckets t') p = Some e
    ∧ m_key e = k
    ∧ (∀ fuel' w, Place fuel' t' k w = Ok (true, ref_set t' p w))
    ∧ match lookup_value t k with
      | Ok (Some v) => t' = t ∧ m_value e = v
      | _ =>
          Place (S fuel) t k V_default = Ok (false, t')
          ∧ m_value e = V_default
          ∧ Count t' = Count t + 1
          ∧ (m_capacity t' = m_capacity t ∨ m_capacity t' = 2 * m_capacity t)
      end.
Proof.
  intros Hwf Hcap. rewrite lookup_value_spec by apply Hwf.
  destruct (decide (k ∈ keys t)) as [Hk|Hk].
  - destruct (locate_present t k Hwf Hk)
      as (b & d & e & Hb & Hg & Hn & Hke & He & Hset).
    exists (b, d), t, e. rewrite He.
    split; [|by eauto]. unfold operator_subscript. rewrite Hb. simpl.
    by rewrite Hg.
  - destruct (locate_absent t k Hwf Hk) as (b & Hb & Hg).
    assert (Hnone : to_map t !! k = None).
    { apply eq_None_not_Some. by rewrite <-keys_to_map. }
    rewrite Hnone.
    destruct (Place_spec fuel t k V_default Hwf Hcap)
      as (Hp & Hwf' & Hmap & Hex & Hcnt & _ & Hc').
    rewrite bool_decide_eq_false_2 in Hex, Hcnt by done.
    destruct (placed t k V_default) as [existed t']. simpl in *. subst existed.
    assert (Hv : to_map t' !! k = Some V_default)
      by (by rewrite Hmap, lookup_insert_eq).
    assert (Hk' : k ∈ keys t') by (by apply keys_to_map; rewrite Hv).
    destruct (locate_present t' k Hwf' Hk')
      as (b' & d' & e & Hb' & Hg' & Hn & Hke & He & Hset).
    exists (b', d'), t', e. split; [|split; [done|split; [done|split; [done|]]]].
    + unfold operator_subscript. rewrite Hb. simpl. rewrite Hg. simpl.
      unfold Place in Hp. rewrite Hb in Hp. simpl in Hp. rewrite Hp. simpl.
      rewrite Hb'. simpl. by rewrite Hg'.
    + split; [done|]. split; [congruence|]. by split.
Qed.

(** C5. Removal: on an absent key [Remove] returns false and the table is
    the same; on a present key it returns true, the node of the key is
    unlinked from its chain and nothing else moves, the count is one less,
    and the capacity, the threshold and the load factor are the same. *)
Theorem C5_remove (t : HashMap) (k : K) :
  wf t →
  (k ∉ keys t → Remove t k = Ok (false, t))
  ∧ (k ∈ keys t →
     ∃ t' l1 e l2,
       Remove t k = Ok (true, t')
       ∧ m_buckets t !! bucket_index (m_capacity t) k = Some (l1 ++ e :: l2)
       ∧ m_key e = k
       ∧ m_buckets t'
         = <[bucket_index (m_capacity t) k := l1 ++ l2]> (m_buckets t)
       ∧ Count t' = Count t - 1
       ∧ m_capacity t' = m_capacity t
       ∧ m_maxCount t' = m_maxCount t
       ∧ m_loadFactor t' = m_loadFactor t
       ∧ lookup_value t' k = Ok None
       ∧ (∀ k', k' ≠ k → lookup_value t' k' = lookup_value t k')).
Proof.
  intros Hwf. split; [by apply Remove_absent|]. intros Hk.
  destruct (Remove_present t k Hwf Hk)
    as (t' & l1 & e & l2 & Hr & Hb & Hke & Ht' & Hwf' & Hmap).
  exists t', l1, e, l2. split; [done|]. split; [done|]. split; [done|].
  rewrite Ht' at 1 2 3 4 5. simpl.
  split; [done|]. split; [done|]. split; [done|]. split; [done|]. split; [done|].
  split.
  - rewrite lookup_value_spec by apply Hwf'. by rewrite Hmap, lookup_delete_eq.
  - intros k' Hne. rewrite !lookup_value_spec by (apply Hwf || apply Hwf').
    by rewrite Hmap, lookup_delete_ne.
Qed.

(** C8 (amended). Overwrite: [Place(k, v1)] then [Place(k, v2)]: the second
    call finds the key and leaves the count as the first call left it, which
    is the count before the first call when the key was present and one more
    when it was new; the lookup of [k] then gives [v2]. *)
Theorem C8_overwrite (fuel : nat) (t : HashMap) (k : K) (v1 v2 : V) :
  wf t → 2 * m_capacity t < size_max →
  ∃ existed t1 t2,
    Place (S fuel) t k v1 = Ok (existed, t1)
    ∧ Place (S fuel) t1 k v2 = Ok (true, t2)
    ∧ Count t2 = Count t1
    ∧ Count t1 = (if existed then Count t else Count t + 1)
    ∧ existed = bool_decide (k ∈ keys t)
    ∧ lookup_value t2 k = Ok (Some v2).
Proof.
  intros Hwf Hcap.
  destruct (Place_spec fuel t k v1 Hwf Hcap)
    as (Hp & Hwf' & Hmap & Hex & Hcnt & _).
  destruct (placed t k v1) as [existed t1]. simpl in *.
  assert (Hv : to_map t1 !! k = Some v1) by (by rewrite Hmap, lookup_insert_eq).
  assert (Hk : k ∈ keys t1) by (by apply keys_to_map; rewrite Hv).
  destruct (Place_present t1 k v2 Hwf' Hk)
    as (t2 & Hp2 & Hwf2 & Hmap2 & _ & _ & Hcnt2 & _).
  exists existed, t1, t2. split; [done|]. split; [done|]. split; [done|].
  split; [by rewrite Hex|]. split; [done|].
  rewrite lookup_value_spec by apply Hwf2. by rewrite Hmap2, lookup_insert_eq.
Qed.



(** C7. Iteration: the key view visits the chain of slot 0 from its head,
    then the chain of slot 1, and so on; every key the table holds is
    visited once; the cursor takes [Count()] steps; and a new key goes to the
    end of the chain of its slot. *)
Theorem C7_iteration (fuel : nat) (t : HashMap) :
  wf t → (Z.to_nat (Count t) ≤ fuel)%nat →
  iterate_keys fuel t = Ok (m_key <$> concat (m_buckets t))
  ∧ NoDup (m_key <$> concat (m_buckets t))
  ∧ (∀ k, k ∈ (m_key <$> concat (m_buckets t))
          ↔ ∃ v, lookup_value t k = Ok (Some v))
  ∧ cursor_steps fuel t = Ok (Count t)
  ∧ (∀ k v fuel', k ∉ keys t → m_count t < m_maxCount t →
       ∃ chain t',
         m_buckets t !! bucket_index (m_capacity t) k = Some chain
         ∧ Place fuel' t k v = Ok (false, t')
         ∧ m_buckets t'
           = <[bucket_index (m_capacity t) k := chain ++ [Entry_new k v]]>
               (m_buckets t)).
Proof.
  intros [Hwf Hth] Hfuel. pose proof (wf_count _ Hwf) as Hcnt.
  unfold Count in *.
  split; [|split; [by apply wf_nodup|split; [|split]]].
  - unfold iterate_keys.
    apply (for_each_begin m_key KeyIterator_deref); [|done|lia].
    intros it p e Hp Hn. unfold KeyIterator_deref. by rewrite Hp, Hn.
  - intros k. fold (entries t). fold (keys t). rewrite keys_to_map. split.
    + intros [v Hv]. exists v. rewrite lookup_value_spec by done. by rewrite Hv.
    + intros [v Hv]. rewrite lookup_value_spec in Hv by done. exists v.
      congruence.
  - unfold cursor_steps.
    rewrite (for_each_begin (λ _, ()) (λ _, Ok ())); [|done|done|lia].
    simpl. by rewrite length_fmap, Hcnt.
  - intros k v fuel' Hk Hlt.
    destruct (wf_bucket t k Hwf) as (chain & Hchain & _).
    destruct (Place_absent_fit fuel' t k v (conj Hwf Hth) Hk Hlt) as (Hp & _).
    exists chain, (appended t k v). split; [done|]. split; [done|].
    unfold appended. simpl. by rewrite Hchain.
Qed.

(** C9. Clear: the count is zero, every slot is empty and the three views
    yield nothing; the capacity and the threshold are kept, and the table is
    the one the constructor builds at that capacity. *)
Theorem C9_clear (t : HashMap) :
  wf t →
  ∃ t',
    Clear t = Ok t'
    ∧ Count t' = 0
    ∧ m_buckets t' = replicate (Z.to_nat (m_capacity t)) []
    ∧ (∀ fuel,
         iterate_keys fuel t' = Ok []
         ∧ iterate_values fuel t' = Ok []
         ∧ iterate_entries fuel t' = Ok [])
    ∧ m_capacity t' = m_capacity t
    ∧ m_maxCount t' = m_maxCount t
    ∧ t' = HashMap_new (m_capacity t) (m_loadFactor t).
Proof.
  intros Hwf. exists (HashMap_new (m_capacity t) (m_loadFactor t)).
  split; [by apply Clear_spec|]. split; [done|]. split; [done|].
  destruct Hwf as [Hwf Hth].
  assert (Hwf' : wf0 (HashMap_new (m_capacity t) (m_loadFactor t))).
  { apply HashMap_new_wf;
      [by apply wf_capacity|by apply wf_loadFactor|by apply wf_regrow]. }
  split; [|split; [done|split; [|done]]].
  - intros fuel. pose proof (HashMap_new_entries (m_capacity t) (m_loadFactor t))
      as Hnil.
    split; [|split].
    + unfold iterate_keys.
      rewrite (for_each_begin m_key KeyIterator_deref); rewrite ?Hnil;
        [done| |done|simpl; lia].
      intros it p e Hp Hn. unfold KeyIterator_deref. by rewrite Hp, Hn.
    + unfold iterate_values.
      rewrite (for_each_begin m_value ValueIterator_deref); rewrite ?Hnil;
        [done| |done|simpl; lia].
      intros it p e Hp Hn. unfold ValueIterator_deref. by rewrite Hp, Hn.
    + unfold iterate_entries.
      rewrite (for_each_begin id EntryIterator_deref); rewrite ?Hnil;
        [done| |done|simpl; lia].
      intros it p e Hp Hn. unfold EntryIterator_deref. by rewrite Hp, Hn.
  - simpl. symmetry. by apply wf_maxCount.
Qed.

(** C10. Advancing a cursor: from the end sentinel, or from any cursor whose
    current entry is null, [operator++] dereferences null.  From a cursor on
    a node it moves to the next node of the chain; at the end of a chain it
    lands on the head of the first non-empty slot that follows, or on null
    past the last slot when there is none. *)
Theorem C10_advance (bs : list (list Entry)) (b d : nat) (chain : list Entry) :
  Z.of_nat (length bs) < size_max →
  bs !! b = Some chain → (d < length chain)%nat →
  (∀ it, m_currEntry it = None → operator_incr it = UB)
  ∧ operator_incr end_ = UB
  ∧ ∃ it',
      operator_incr (cursor bs (Z.of_nat b) (Some (b, d))) = Ok it'
      ∧ i_buckets it' = bs
      ∧ i_capacity it' = Z.of_nat (length bs)
      ∧ if decide (S d < length chain)%nat then
          m_currEntry it' = Some (b, S d) ∧ m_bucketIndex it' = Z.of_nat b
        else
          match m_currEntry it' with
          | Some (j, d') =>
              d' = 0%nat ∧ m_bucketIndex it' = Z.of_nat j ∧ (b < j)%nat
              ∧ (∃ e c, bs !! j = Some (e :: c))
              ∧ (∀ i, (b < i < j)%nat → bs !! i = Some [])
          | None =>
              m_bucketIndex it' = Z.of_nat (length bs)
              ∧ (∀ i, (b < i < length bs)%nat → bs !! i = Some [])
          end.
Proof.
  intros Hsz Hb Hd. split; [|split; [done|]].
  { intros it Hnull. unfold operator_incr. by rewrite Hnull. }
  rewrite (operator_incr_node bs b d chain) by done.
  eexists. split; [done|]. case_decide as Hn; [done|].
  unfold landing. pose proof (next_nonempty_spec bs (S b)) as Hsp.
  destruct (next_nonempty bs (S b)) as [j|]; simpl.
  - destruct Hsp as (Hj & Hne & Hempty & _).
    split; [done|]. split; [done|]. split; [done|]. split; [done|].
    split; [lia|]. split; [done|]. intros i Hi. apply Hempty. lia.
  - destruct Hsp as (Hempty & _). split; [done|]. split; [done|].
    split; [done|]. intros i Hi. apply Hempty. lia.
Qed.

(** * Further properties of the code *)

(** ** The constructor *)

Lemma begin_landing (t : HashMap) :
  0 < m_capacity t < size_max →
  length (m_buckets t) = Z.to_nat (m_capacity t) →
  begin_ t = Ok (landing (m_buckets t) 0).
Proof.
  intros Hc Hlen.
  assert (Hsz : Z.of_nat (length (m_buckets t)) < size_max) by lia.
  unfold begin_, HashIterator_new, head_of.
  destruct (lookup_lt_is_Some_2 (m_buckets t) 0) as [chain Hchain]; [lia|].
  change (Z.to_nat 0) with 0%nat. rewrite Hchain.
  replace (m_capacity t) with (Z.of_nat (length (m_buckets t))) by lia.
  unfold landing. rewrite (next_nonempty_step _ _ _ Hchain).
  destruct chain as [|e chain]; simpl.
  - rewrite Nat2Z.id. change 0 with (Z.of_nat 0).
    by apply (scan_null _ Hsz (length (m_buckets t) - 1)); lia.
  - by rewrite scan_unfold.
Qed.



(** X2. A table constructed with capacity 0: [Place], [Remove] and
    [operator[]] take a remainder by zero, and [begin()] reads slot 0 of an
    array of no slot; only [Clear] returns. *)
Theorem X2_zero_capacity (q : Q) (k : K) (v : V) (fuel : nat) :
  Place fuel (HashMap_new 0 q) k v = UB
  ∧ Remove (HashMap_new 0 q) k = UB
  ∧ operator_subscript fuel (HashMap_new 0 q) k = UB
  ∧ begin_ (HashMap_new 0 q) = UB
  ∧ iterate_keys fuel (HashMap_new 0 q) = UB
  ∧ Clear (HashMap_new 0 q) = Ok (HashMap_new 0 q).
Proof. by split_and!. Qed.

(** ** Place, Remove and indexed assignment *)



(** X4. A second [Remove] of the same key always returns false and changes
    nothing: after the first one the key is not found. *)
Theorem X4_remove_twice (t : HashMap) (k : K) :
  wf t →
  ∃ existed t',
    Remove t k = Ok (existed, t')
    ∧ wf t'
    ∧ lookup_value t' k = Ok None
    ∧ Remove t' k = Ok (false, t').
Proof.
  intros Hwf. destruct (decide (k ∈ keys t)) as [Hk|Hk].
  - destruct (Remove_present t k Hwf Hk)
      as (t' & l1 & e & l2 & Hr & _ & _ & _ & Hwf' & Hmap).
    assert (Hnone : to_map t' !! k = None) by (by rewrite Hmap, lookup_delete_eq).
    exists true, t'. split; [done|]. split; [done|]. split.
    + rewrite lookup_value_spec by apply Hwf'. by rewrite Hnone.
    + apply Remove_absent; [done|]. rewrite keys_to_map, Hnone.
      by intros [? ?].
  - exists false, t. rewrite (Remove_absent t k Hwf Hk).
    split; [done|]. split; [done|]. split; [|done].
    rewrite lookup_value_spec by apply Hwf. f_equal.
    apply eq_None_not_Some. by rewrite <-keys_to_map.
Qed.

Lemma snoc_split_last (chain l1 l2 : list Entry) (e1 e : Entry) (k : K) :
  chain ++ [e1] = l1 ++ e :: l2 → m_key e = k → k ∉ (m_key <$> chain) →
  l1 = chain ∧ l2 = [] ∧ e = e1.
Proof.
  intros Heq Hk Hnot. destruct l2 as [|x l2 _] using rev_ind.
  - apply app_inj_tail in Heq as [-> ->]. done.
  - exfalso. change (e :: l2 ++ [x]) with ((e :: l2) ++ [x]) in Heq.
    rewrite app_assoc in Heq. apply app_inj_tail in Heq as [-> _].
    apply Hnot. rewrite fmap_app, fmap_cons, Hk.
    apply elem_of_app. right. apply elem_of_cons. by left.
Qed.

(** X5. [Place] of a new key, then [Remove] of it: every key is looked up
    as before and the count is the same.  When the insertion did not grow the
    table, the table is exactly the one before; when it did, the capacity
    stays doubled. *)
Theorem X5_place_then_remove (fuel : nat) (t : HashMap) (k : K) (v : V) :
  wf t → k ∉ keys t → 2 * m_capacity t < size_max →
  ∃ t1 t2,
    Place (S fuel) t k v = Ok (false, t1)
    ∧ Remove t1 k = Ok (true, t2)
    ∧ (∀ k', lookup_value t2 k' = lookup_value t k')
    ∧ Count t2 = Count t
    ∧ (m_count t < m_maxCount t → t2 = t)
    ∧ (m_count t = m_maxCount t → m_capacity t2 = 2 * m_capacity t).
Proof.
  intros Hwf Hk Hcap.
  assert (Hnone : to_map t !! k = None).
  { apply eq_None_not_Some. by rewrite <-keys_to_map. }
  assert (Hback : ∀ t1 t2, wf t1 → wf t2 →
    to_map t1 = <[k := v]> (to_map t) → to_map t2 = delete k (to_map t1) →
    (∀ k', lookup_value t2 k' = lookup_value t k') ∧ Count t2 = Count t).
  { intros t1 t2 Hwf1 Hwf2 Hm1 Hm2.
    assert (to_map t2 = to_map t) as Hm by (by rewrite Hm2, Hm1, delete_insert_id).
    split.
    - intros k'. rewrite !lookup_value_spec by (apply Hwf || apply Hwf2).
      by rewrite Hm.
    - unfold Count. rewrite !count_spec by (apply Hwf || apply Hwf2).
      by rewrite Hm. }
  assert (Hin : ∀ t1, to_map t1 = <[k := v]> (to_map t) → k ∈ keys t1).
  { intros t1 Hm. apply keys_to_map. rewrite Hm, lookup_insert_eq. by eexists. }
  destruct (decide (m_count t < m_maxCount t)) as [Hlt|Hge].
  - destruct (Place_absent_fit (S fuel) t k v Hwf Hk Hlt)
      as (Hp & Hwf1 & Hm1 & Hc1).
    destruct (Remove_present _ k Hwf1 (Hin _ Hm1))
      as (t2 & l1 & e & l2 & Hr & Hb & Hke & Ht2 & Hwf2 & Hm2).
    exists (appended t k v), t2. destruct (Hback _ _ Hwf1 Hwf2 Hm1 Hm2) as [? ?].
    split; [done|]. split; [done|]. split; [done|]. split; [done|].
    split; [|lia]. intros _.
    destruct (wf_bucket t k (proj1 Hwf)) as (chain & Hchain & _).
    change (m_capacity (appended t k v)) with (m_capacity t) in *.
    pose proof (lookup_lt_Some _ _ _ Hchain) as Hlt'.
    unfold appended in Hb. simpl in Hb. rewrite Hchain in Hb. simpl in Hb.
    rewrite list_lookup_insert_eq in Hb by done. injection Hb as Hb.
    assert (Hkc : k ∉ (m_key <$> chain)).
    { intros (e' & -> & He)%list_elem_of_fmap. apply Hk. by eapply key_in_chain. }
    destruct (snoc_split_last _ _ _ _ _ _ Hb Hke Hkc) as (-> & -> & _).
    rewrite Ht2, Hc1. unfold appended. simpl. rewrite Hchain. simpl.
    rewrite app_nil_r, list_insert_insert_eq, (list_insert_id _ _ _ Hchain).
    destruct t. unfold set_count, set_buckets. simpl. f_equal. lia.
  - assert (m_count t = m_maxCount t) as Heq by (destruct Hwf; lia).
    destruct (Place_absent_grow fuel t k v Hwf Hk Heq Hcap)
      as (Hp & Hwf1 & Hm1 & Hc1).
    destruct (Remove_present _ k Hwf1 (Hin _ Hm1))
      as (t2 & l1 & e & l2 & Hr & Hb & Hke & Ht2 & Hwf2 & Hm2).
    exists (rehashed (appended t k v)), t2.
    destruct (Hback _ _ Hwf1 Hwf2 Hm1 Hm2) as [? ?].
    split; [done|]. split; [done|]. split; [done|]. split; [done|].
    split; [lia|]. intros _. by rewrite Ht2.
Qed.

(** X6. Indexed assignment [map[k] = v] and [Place(k, v)] leave tables that
    cannot be told apart: every key is looked up the same in both, and the
    count and the capacity are equal. *)
Theorem X6_subscript_assign (fuel : nat) (t : HashMap) (k : K) (v : V) :
  wf t → 2 * m_capacity t < size_max →
  ∃ t' existed tp,
    subscript_assign (S fuel) t k v = Ok t'
    ∧ Place (S fuel) t k v = Ok (existed, tp)
    ∧ wf t'
    ∧ (∀ k', lookup_value t' k' = lookup_value tp k')
    ∧ Count t' = Count tp
    ∧ m_capacity t' = m_capacity tp.
Proof.
  intros Hwf Hcap. unfold subscript_assign.
  destruct (decide (k ∈ keys t)) as [Hk|Hk].
  - destruct (locate_present t k Hwf Hk)
      as (b & d & e & Hb & Hg & _ & _ & _ & Hset).
    destruct (Place_present t k v Hwf Hk) as (tp & Hp & Hwfp & _).
    pose proof (Hset (S fuel) v) as Hp'. rewrite Hp in Hp'.
    injection Hp' as Hp'. subst tp.
    exists (ref_set t (b, d) v), true, (ref_set t (b, d) v).
    split; [|by rewrite Hp].
    unfold operator_subscript. rewrite Hb. simpl. by rewrite Hg.
  - destruct (locate_absent t k Hwf Hk) as (b & Hb & Hg).
    assert (Hsame : ∀ t1 tp, wf t1 → wf tp →
      Place (S fuel) t k V_default = Ok (false, t1) →
      to_map t1 = <[k := V_default]> (to_map t) →
      to_map tp = <[k := v]> (to_map t) →
      m_count tp = m_count t1 → m_capacity tp = m_capacity t1 →
      ∃ t',
        (operator_subscript (S fuel) t k ≫= λ r, Ok (ref_set r.2 r.1 v)) = Ok t'
        ∧ wf t'
        ∧ (∀ k', lookup_value t' k' = lookup_value tp k')
        ∧ Count t' = Count tp
        ∧ m_capacity t' = m_capacity tp).
    { intros t1 tp Hwf1 Hwfp Hp1 Hm1 Hmp Hcnt Hc.
      assert (Hk1 : k ∈ keys t1).
      { apply keys_to_map. rewrite Hm1, lookup_insert_eq. by eexists. }
      destruct (locate_present t1 k Hwf1 Hk1)
        as (b' & d' & e & Hb' & Hg' & _ & _ & _ & Hset).
      destruct (Place_present t1 k v Hwf1 Hk1)
        as (t' & Hp' & Hwf' & Hm' & _ & Hc' & Hn' & _).
      pose proof (Hset 0%nat v) as Hs. rewrite Hp' in Hs. injection Hs as Hs.
      exists t'. split; [|split; [done|split; [|split]]].
      - unfold operator_subscript. rewrite Hb. simpl. rewrite Hg. simpl.
        unfold Place in Hp1. rewrite Hb in Hp1. simpl in Hp1. rewrite Hp1.
        simpl. rewrite Hb'. simpl. rewrite Hg'. simpl. by rewrite Hs.
      - intros k'. rewrite !lookup_value_spec by (apply Hwf' || apply Hwfp).
        by rewrite Hm', Hm1, Hmp, insert_insert_eq.
      - unfold Count. lia.
      - lia. }
    destruct (decide (m_count t < m_maxCount t)) as [Hlt|Hge].
    + destruct (Place_absent_fit (S fuel) t k V_default Hwf Hk Hlt)
        as (Hp1 & Hwf1 & Hm1 & Hc1).
      destruct (Place_absent_fit (S fuel) t k v Hwf Hk Hlt)
        as (Hpp & Hwfp & Hmp & Hcp).
      destruct (Hsame _ _ Hwf1 Hwfp Hp1 Hm1 Hmp) as (t' & ? & ? & ? & ? & ?);
        [lia|done|].
      exists t', false, (appended t k v). by eauto 10.
    + assert (m_count t = m_maxCount t) as Heq by (destruct Hwf; lia).
      destruct (Place_absent_grow fuel t k V_default Hwf Hk Heq Hcap)
        as (Hp1 & Hwf1 & Hm1 & Hc1).
      destruct (Place_absent_grow fuel t k v Hwf Hk Heq Hcap)
        as (Hpp & Hwfp & Hmp & Hcp).
      destruct (Hsame _ _ Hwf1 Hwfp Hp1 Hm1 Hmp) as (t' & ? & ? & ? & ? & ?);
        [lia|done|].
      exists t', false, (rehashed (appended t k v)). by eauto 10.
Qed.

(** ** What every sequence of calls keeps *)




(** ** The three views *)

Lemma entry_lookup (t : HashMap) (e : Entry) :
  wf0 t → e ∈ entries t → lookup_value t (m_key e) = Ok (Some (m_value e)).
Proof.
  intros Hwf He. rewrite lookup_value_spec by done. f_equal.
  apply elem_of_list_to_map_1.
  - rewrite keys_pairs. by apply wf_nodup.
  - apply list_elem_of_fmap. by exists e.
Qed.

(** X8. The three views traverse the same nodes in the same order: the
    entry view yields every entry, slot after slot and each chain from its
    head; the key view yields their keys and the value view their values,
    position by position; and the value an entry holds is the one a lookup
    of its key returns. *)
Theorem X8_views_agree (fuel : nat) (t : HashMap) :
  wf t → (Z.to_nat (Count t) ≤ fuel)%nat →
  ∃ visited,
    iterate_entries fuel t = Ok visited
    ∧ visited = concat (m_buckets t)
    ∧ iterate_keys fuel t = Ok (m_key <$> visited)
    ∧ iterate_values fuel t = Ok (m_value <$> visited)
    ∧ Z.of_nat (length visited) = Count t
    ∧ (∀ e, e ∈ visited →
         lookup_value t (m_key e) = Ok (Some (m_value e))).
Proof.
  intros [Hwf Hth] Hfuel. pose proof (wf_count _ Hwf) as Hcnt.
  unfold Count in *. exists (entries t).
  assert (Hlen : (length (entries t) ≤ fuel)%nat) by lia.
  split; [|split; [done|split; [|split; [|split; [lia|]]]]].
  - unfold iterate_entries.
    rewrite (for_each_begin id EntryIterator_deref);
      [by rewrite list_fmap_id| |done|done].
    intros it p e Hp Hn. unfold EntryIterator_deref. by rewrite Hp, Hn.
  - unfold iterate_keys.
    apply (for_each_begin m_key KeyIterator_deref); [|done|done].
    intros it p e Hp Hn. unfold KeyIterator_deref. by rewrite Hp, Hn.
  - unfold iterate_values.
    apply (for_each_begin m_value ValueIterator_deref); [|done|done].
    intros it p e Hp Hn. unfold ValueIterator_deref. by rewrite Hp, Hn.
  - intros e He. by apply entry_lookup.
Qed.

(** X9. [begin()] equals [end()] exactly when the table is empty; when it is
    not, [begin()] stands on the first entry of the traversal. *)
Theorem X9_begin_is_end_iff_empty (t : HashMap) :
  wf t →
  ∃ it,
    begin_ t = Ok it
    ∧ (operator_eq it end_ = true ↔ Count t = 0)
    ∧ (∀ e rest, concat (m_buckets t) = e :: rest →
         EntryIterator_deref it = Ok e
         ∧ KeyIterator_deref it = Ok (m_key e)
         ∧ ValueIterator_deref it = Ok (m_value e)).
Proof.
  intros [Hwf Hth]. pose proof (wf_count _ Hwf) as Hcnt.
  rewrite begin_landing by (apply Hwf). eexists. split; [done|].
  unfold landing, Count, entries in *.
  pose proof (next_nonempty_spec (m_buckets t) 0) as Hsp.
  destruct (next_nonempty (m_buckets t) 0) as [j|].
  - destruct Hsp as (Hj & (e' & chain' & Hj') & _ & Hcat).
    rewrite drop_0 in Hcat. rewrite Hcat, (drop_S _ _ _ Hj') in Hcnt |- *.
    simpl in Hcnt. split.
    + unfold operator_eq. simpl. split; [done|lia].
    + intros e rest [= <- _].
      unfold EntryIterator_deref, KeyIterator_deref, ValueIterator_deref,
        node_at. simpl. by rewrite Hj'.
  - destruct Hsp as (_ & Hcat). rewrite drop_0 in Hcat. rewrite Hcat in *.
    split; [done|]. by intros e rest [=].
Qed.


(** ** Reallocate *)






(** ** Growth inside growth *)










(** X14. A traversal resumed from a cursor that stands on a node: advancing
    until the end visits the rest of the chain of the node, the node first,
    then the chains of the slots that follow, and nothing of what precedes. *)
Theorem X14_traversal_from_node (fuel : nat) (bs : list (list Entry))
    (b d : nat) (chain : list Entry) :
  Z.of_nat (length bs) < size_max →
  bs !! b = Some chain → (d < length chain)%nat →
  (length (drop d chain ++ concat (drop (S b) bs)) ≤ fuel)%nat →
  for_each KeyIterator_deref fuel (cursor bs (Z.of_nat b) (Some (b, d)))
  = Ok (m_key <$> (drop d chain ++ concat (drop (S b) bs)))
  ∧ for_each ValueIterator_deref fuel (cursor bs (Z.of_nat b) (Some (b, d)))
    = Ok (m_value <$> (drop d chain ++ concat (drop (S b) bs))).
Proof.
  intros Hsz Hb Hd Hfuel. split.
  - apply (for_each_node m_key KeyIterator_deref); [|done..].
    intros it p e Hp Hn. unfold KeyIterator_deref. by rewrite Hp, Hn.
  - apply (for_each_node m_value ValueIterator_deref); [|done..].
    intros it p e Hp Hn. unfold ValueIterator_deref. by rewrite Hp, Hn.
Qed.

End HashMap.

(** * Concrete tables: [HashMap<int, std::string>] *)

(** [std::hash<int>]: the key itself, converted to [size_t]. *)
Definition hash_int (k : Z) : Z := wrap k.

Definition IntMap : Type := HashMap (K := Z) (V := string).

(** [HashMap<int, std::string> map;]: capacity 16, load factor 0.75. *)
Definition map0 : IntMap := HashMap_new 16 (3 # 4)%Q.



(** [map0] after [map.Place(1, "A")]. *)
Definition map1 : IntMap := (placed hash_int map0 1 "A").2.

(** The calls of [main]: six [Place], thirteen assignments through
    [operator[]]. *)
Definition assign (fuel : nat) (t : IntMap) (k : Z) (v : string)
    : result IntMap :=
  r ← operator_subscript EmptyString hash_int fuel t k;
  Ok (ref_set r.2 r.1 v).

Definition main_fill (fuel : nat) : result IntMap :=
  t ← run hash_int fuel
        [OpPlace 1 "A"; OpPlace 2 "B"; OpPlace 3 "C";
         OpPlace 4 "D"; OpPlace 5 "E"; OpPlace 6 "F"] map0;
  foldl (λ r kv, t ← r; assign fuel t kv.1 kv.2) (Ok t)
    [(7, "G"); (8, "H"); (9, "I"); (10, "J"); (11, "K"); (12, "L"); (13, "M");
     (14, "N"); (15, "O"); (16, "P"); (17, "Q"); (18, "R"); (19, "S")].

Definition main_remove (t : IntMap) : result IntMap :=
  run hash_int 0
    [OpRemove 1; OpRemove 2; OpRemove 3; OpRemove 4; OpRemove 5; OpRemove 6] t.

(** A chain of two nodes. *)
Definition two_nodes : list (Entry (K := Z) (V := string)) :=
  [Entry_new hash_int 0 "A"; Entry_new hash_int 3 "B"].

(** A bucket array of three slots: two nodes, none, one node. *)
Definition three_slots : list (list (Entry (K := Z) (V := string))) :=
  [two_nodes; []; [Entry_new hash_int 2 "C"]].

(** The table a call leaves, for a call that returns. *)
Definition table_of (r : result IntMap) : IntMap :=
  match r with
  | Ok t => t
  | _ => map0
  end.

Definition main_filled : IntMap := table_of (main_fill 1).

Definition main_removed : IntMap := table_of (main_remove main_filled).

Definition main_cleared : IntMap := table_of (Clear main_removed).






(** The scenario of [main]: the table grows once, to capacity 32; the key
    view yields the nineteen keys; removing six leaves thirteen; clearing
    leaves none. *)
Example main_scenario :
  main_fill 1 = Ok main_filled
  ∧ m_capacity main_filled = 32
  ∧ Count main_filled = 19
  ∧ iterate_keys 19 main_filled = Ok (Z.of_nat <$> seq 1 19)
  ∧ iterate_values 19 main_filled
    = Ok ["A"; "B"; "C"; "D"; "E"; "F"; "G"; "H"; "I"; "J"; "K"; "L"; "M";
          "N"; "O"; "P"; "Q"; "R"; "S"]
  ∧ main_remove main_filled = Ok main_removed
  ∧ Count main_removed = 13
  ∧ iterate_keys 13 main_removed = Ok (Z.of_nat <$> seq 7 13)
  ∧ Clear main_removed = Ok main_cleared
  ∧ Count main_cleared = 0
  ∧ iterate_keys 0 main_cleared = Ok [].
Proof. split_and!; by vm_compute. Qed.

(** ** The properties at concrete tables *)

Lemma C1_witness :
  ∃ existed t' p,
    Place hash_int 1 map0 5 "E" = Ok (existed, t')
    ∧ operator_subscript EmptyString hash_int 0 t' 5 = Ok (p, t')
    ∧ ref_get t' p = Some "E".
Proof.
  apply (C1_place_then_lookup EmptyString hash_int 0 0 map0 5 "E").
  - apply HashMap_new_wf; by vm_compute.
  - by vm_compute.
Defined.



Lemma C4_witness :
  ∃ p t' e,
    operator_subscript EmptyString hash_int 1 map1 7 = Ok (p, t')
    ∧ node_at (m_buckets t') p = Some e
    ∧ m_key e = 7
    ∧ (∀ fuel' w, Place hash_int fuel' t' 7 w = Ok (true, ref_set t' p w))
    ∧ match lookup_value hash_int map1 7 with
      | Ok (Some v) => t' = map1 ∧ m_value e = v
      | _ =>
          Place hash_int 1 map1 7 EmptyString = Ok (false, t')
          ∧ m_value e = EmptyString
          ∧ Count t' = Count map1 + 1
          ∧ (m_capacity t' = m_capacity map1
             ∨ m_capacity t' = 2 * m_capacity map1)
      end.
Proof.
  apply (C4_subscript_never_absent EmptyString hash_int 0 map1 7).
  - apply (Place_spec hash_int 0 map0 1 "A").
    + apply HashMap_new_wf; by vm_compute.
    + by vm_compute.
  - by vm_compute.
Defined.

Lemma C5_witness :
  (1 ∉ keys map1 → Remove hash_int map1 1 = Ok (false, map1))
  ∧ (1 ∈ keys map1 →
     ∃ t' l1 e l2,
       Remove hash_int map1 1 = Ok (true, t')
       ∧ m_buckets map1 !! bucket_index hash_int (m_capacity map1) 1
         = Some (l1 ++ e :: l2)
       ∧ m_key e = 1
       ∧ m_buckets t'
         = <[bucket_index hash_int (m_capacity map1) 1 := l1 ++ l2]>
             (m_buckets map1)
       ∧ Count t' = Count map1 - 1
       ∧ m_capacity t' = m_capacity map1
       ∧ m_maxCount t' = m_maxCount map1
       ∧ m_loadFactor t' = m_loadFactor map1
       ∧ lookup_value hash_int t' 1 = Ok None
       ∧ (∀ k', k' ≠ 1 →
            lookup_value hash_int t' k' = lookup_value hash_int map1 k')).
Proof.
  apply (C5_remove hash_int map1 1).
  apply (Place_spec hash_int 0 map0 1 "A").
  - apply HashMap_new_wf; by vm_compute.
  - by vm_compute.
Defined.



Lemma C7_witness :
  iterate_keys 1 map1 = Ok (m_key <$> concat (m_buckets map1))
  ∧ NoDup (m_key <$> concat (m_buckets map1))
  ∧ (∀ k, k ∈ (m_key <$> concat (m_buckets map1))
          ↔ ∃ v, lookup_value hash_int map1 k = Ok (Some v))
  ∧ cursor_steps 1 map1 = Ok (Count map1)
  ∧ (∀ k v fuel', k ∉ keys map1 → m_count map1 < m_maxCount map1 →
       ∃ chain t',
         m_buckets map1 !! bucket_index hash_int (m_capacity map1) k
         = Some chain
         ∧ Place hash_int fuel' map1 k v = Ok (false, t')
         ∧ m_buckets t'
           = <[bucket_index hash_int (m_capacity map1) k :=
                 chain ++ [Entry_new hash_int k v]]> (m_buckets map1)).
Proof.
  apply (C7_iteration hash_int 1 map1).
  - apply (Place_spec hash_int 0 map0 1 "A").
    + apply HashMap_new_wf; by vm_compute.
    + by vm_compute.
  - vm_compute. lia.
Defined.

Lemma C8_witness :
  ∃ existed t1 t2,
    Place hash_int 1 map0 1 "A" = Ok (existed, t1)
    ∧ Place hash_int 1 t1 1 "B" = Ok (true, t2)
    ∧ Count t2 = Count t1
    ∧ Count t1 = (if existed then Count map0 else Count map0 + 1)
    ∧ existed = bool_decide (1 ∈ keys map0)
    ∧ lookup_value hash_int t2 1 = Ok (Some "B").
Proof.
  apply (C8_overwrite hash_int 0 map0 1 "A" "B").
  - apply HashMap_new_wf; by vm_compute.
  - by vm_compute.
Defined.

(** [Place(1, "A")] then [Place(1, "B")] on the empty table: the key was
    new, and the count is 1 where it was 0 before the first call. *)
Lemma C8_counterexample :
  ∃ t1 t2,
    (1 ∉ keys map0)
    ∧ Place hash_int 1 map0 1 "A" = Ok (false, t1)
    ∧ Place hash_int 1 t1 1 "B" = Ok (true, t2)
    ∧ Count map0 = 0
    ∧ Count t2 = 1
    ∧ Count t2 ≠ Count map0.
Proof.
  eexists _, _. split; [vm_compute; apply not_elem_of_nil|].
  split; [by vm_compute|]. split; [by vm_compute|]. by vm_compute.
Qed.

Lemma C9_witness :
  ∃ t',
    Clear map1 = Ok t'
    ∧ Count t' = 0
    ∧ m_buckets t' = replicate (Z.to_nat (m_capacity map1)) []
    ∧ (∀ fuel,
         iterate_keys fuel t' = Ok []
         ∧ iterate_values fuel t' = Ok []
         ∧ iterate_entries fuel t' = Ok [])
    ∧ m_capacity t' = m_capacity map1
    ∧ m_maxCount t' = m_maxCount map1
    ∧ t' = HashMap_new (m_capacity map1) (m_loadFactor map1).
Proof.
  apply (C9_clear hash_int map1).
  apply (Place_spec hash_int 0 map0 1 "A").
  - apply HashMap_new_wf; by vm_compute.
  - by vm_compute.
Defined.

Lemma C10_witness :
  (∀ it : HashIterator (K := Z) (V := string),
     m_currEntry it = None → operator_incr it = UB)
  ∧ operator_incr (end_ (K := Z) (V := string)) = UB
  ∧ ∃ it',
      operator_incr (cursor three_slots (Z.of_nat 0) (Some (0%nat, 1%nat))) = Ok it'
      ∧ i_buckets it' = three_slots
      ∧ i_capacity it' = Z.of_nat (length three_slots)
      ∧ if decide (2 < length two_nodes)%nat then
          m_currEntry it' = Some (0%nat, 2%nat) ∧ m_bucketIndex it' = Z.of_nat 0
        else
          match m_currEntry it' with
          | Some (j, d') =>
              d' = 0%nat ∧ m_bucketIndex it' = Z.of_nat j ∧ (0 < j)%nat
              ∧ (∃ e c, three_slots !! j = Some (e :: c))
              ∧ (∀ i, (0 < i < j)%nat → three_slots !! i = Some [])
          | None =>
              m_bucketIndex it' = Z.of_nat (length three_slots)
              ∧ (∀ i, (0 < i < length three_slots)%nat →
                   three_slots !! i = Some [])
          end.
Proof.
  apply (C10_advance three_slots 0 1 two_nodes).
  - by vm_compute.
  - reflexivity.
  - simpl. lia.
Defined.

(** ** More properties at concrete tables *)




Lemma X4_witness :
  ∃ existed t',
    Remove hash_int map1 1 = Ok (existed, t')
    ∧ wf hash_int t'
    ∧ lookup_value hash_int t' 1 = Ok None
    ∧ Remove hash_int t' 1 = Ok (false, t').
Proof.
  apply (X4_remove_twice hash_int map1 1).
  apply (Place_spec hash_int 0 map0 1 "A").
  - apply HashMap_new_wf; by vm_compute.
  - by vm_compute.
Defined.

Lemma X5_witness :
  ∃ t1 t2,
    Place hash_int 1 map0 1 "A" = Ok (false, t1)
    ∧ Remove hash_int t1 1 = Ok (true, t2)
    ∧ (∀ k', lookup_value hash_int t2 k' = lookup_value hash_int map0 k')
    ∧ Count t2 = Count map0
    ∧ (m_count map0 < m_maxCount map0 → t2 = map0)
    ∧ (m_count map0 = m_maxCount map0 → m_capacity t2 = 2 * m_capacity map0).
Proof.
  apply (X5_place_then_remove hash_int 0 map0 1 "A").
  - apply HashMap_new_wf; by vm_compute.
  - vm_compute. apply not_elem_of_nil.
  - by vm_compute.
Defined.

Lemma X6_witness :
  ∃ t' existed tp,
    subscript_assign EmptyString hash_int 1 map1 7 "G" = Ok t'
    ∧ Place hash_int 1 map1 7 "G" = Ok (existed, tp)
    ∧ wf hash_int t'
    ∧ (∀ k', lookup_value hash_int t' k' = lookup_value hash_int tp k')
    ∧ Count t' = Count tp
    ∧ m_capacity t' = m_capacity tp.
Proof.
  apply (X6_subscript_assign EmptyString hash_int 0 map1 7 "G").
  - apply (Place_spec hash_int 0 map0 1 "A").
    + apply HashMap_new_wf; by vm_compute.
    + by vm_compute.
  - by vm_compute.
Defined.


Lemma X8_witness :
  ∃ visited,
    iterate_entries 1 map1 = Ok visited
    ∧ visited = concat (m_buckets map1)
    ∧ iterate_keys 1 map1 = Ok (m_key <$> visited)
    ∧ iterate_values 1 map1 = Ok (m_value <$> visited)
    ∧ Z.of_nat (length visited) = Count map1
    ∧ (∀ e, e ∈ visited →
         lookup_value hash_int map1 (m_key e) = Ok (Some (m_value e))).
Proof.
  apply (X8_views_agree hash_int 1 map1).
  - apply (Place_spec hash_int 0 map0 1 "A").
    + apply HashMap_new_wf; by vm_compute.
    + by vm_compute.
  - vm_compute. lia.
Defined.

Lemma X9_witness :
  ∃ it,
    begin_ map1 = Ok it
    ∧ (operator_eq it end_ = true ↔ Count map1 = 0)
    ∧ (∀ e rest, concat (m_buckets map1) = e :: rest →
         EntryIterator_deref it = Ok e
         ∧ KeyIterator_deref it = Ok (m_key e)
         ∧ ValueIterator_deref it = Ok (m_value e)).
Proof.
  apply (X9_begin_is_end_iff_empty hash_int map1).
  apply (Place_spec hash_int 0 map0 1 "A").
  - apply HashMap_new_wf; by vm_compute.
  - by vm_compute.
Defined.




Lemma X14_witness :
  for_each KeyIterator_deref 2
    (cursor three_slots (Z.of_nat 0) (Some (0%nat, 1%nat)))
  = Ok (m_key <$> (drop 1 two_nodes ++ concat (drop 1 three_slots)))
  ∧ for_each ValueIterator_deref 2
      (cursor three_slots (Z.of_nat 0) (Some (0%nat, 1%nat)))
    = Ok (m_value <$> (drop 1 two_nodes ++ concat (drop 1 three_slots))).
Proof.
  apply (X14_traversal_from_node 2 three_slots 0 1 two_nodes).
  - by vm_compute.
  - reflexivity.
  - simpl. lia.
  - simpl. lia.
Defined.
